(** * Measurement schema enumeration of the tsm1 storage engine

    A shallow embedding of [tsdb/tsm1/engine_measurement_schema.go]:
    [Engine.MeasurementNames], [Engine.MeasurementTagValues] and
    [Engine.MeasurementTagKeys], together with the collaborators these
    functions call (file store, TSM file cursor, cache, context, key codec),
    and the properties of the enumeration that the design document states. *)

From Stdlib Require Import ZArith Lia Bool List Ascii String.
From stdpp Require Import base decidable option list sets gmap strings sorting.

Local Open Scope Z_scope.
Local Open Scope string_scope.

(** ** Go integers *)

(** Go's [int] on the 64-bit targets the engine is built for: a signed
    64-bit word whose arithmetic wraps around. *)
Definition wrap64 (z : Z) : Z := (z + 2 ^ 63) mod 2 ^ 64 - 2 ^ 63.
Definition int_add (a b : Z) : Z := wrap64 (a + b).
Definition int_mul (a b : Z) : Z := wrap64 (a * b).

(** ** Errors and the context *)

(** The errors a [context.Context] reports, and a generic error for
    collaborators. *)
Inductive Error : Type :=
  | Canceled
  | DeadlineExceeded
  | ErrOther (msg : string).

(** [context.Context], as seen by a sequential caller.  The engine looks at
    the context only at discrete moments, so its behaviour is given by the
    index of the first poll that finds it done: [cancelAt = Some d] is a
    context that fires after [d] polls have found it live ([d = 0]: it is
    already canceled when the call starts), [None] one that never fires.
    Once done a context stays done, and from then on [Err] is non-nil. *)
Record Context : Type := {
  cancelAt : option nat;
  cause : Error
}.

(** [<-ctx.Done()] is ready at logical time [t]. *)
Definition Done (ctx : Context) (t : nat) : bool :=
  match cancelAt ctx with
  | Some d => (d <=? t)%nat
  | None => false
  end.

(** [ctx.Err()] at logical time [t]. *)
Definition Err (ctx : Context) (t : nat) : option Error :=
  if Done ctx t then Some (cause ctx) else None.

(** ** Scan statistics *)

(** [cursors.CursorStats]: two [int] counters. *)
Record CursorStats : Type := {
  ScannedValues : Z;
  ScannedBytes : Z
}.

Definition zeroStats : CursorStats := {| ScannedValues := 0; ScannedBytes := 0 |}.

(** Modelled from the spec: [CursorStats.Add] of package cursors is not among
    the sources; the design document gives it as the addition of the two
    counters, component by component. *)
Definition CursorStats_Add (s other : CursorStats) : CursorStats :=
  {| ScannedValues := int_add (ScannedValues s) (ScannedValues other);
     ScannedBytes := int_add (ScannedBytes s) (ScannedBytes other) |}.

(** ** The collaborators *)

(** Modelled from the spec: the cursor a TSM file hands out
    ([TimeRangeIterator] of package tsm1) is not among the sources.  It is an
    ordered cursor over the keys of the file; each position has a key
    ([Key]), the answer to "this key has a value in the time range"
    ([HasData]), and the scan cost that answering the question adds to the
    cursor's statistics ([Stats] reports the cost accumulated so far). *)
Record CursorItem : Type := {
  itemKey : string;
  itemHasData : bool;
  itemCost : CursorStats
}.

Definition Cursor : Type := list CursorItem.

(** The [TSMFile] interface, restricted to the methods [MeasurementNames]
    calls. *)
Record TSMFile : Type := {
  OverlapsTimeRange : Z -> Z -> bool;
  OverlapsKeyPrefixRange : string -> string -> bool;
  TimeRangeIterator : string -> Z -> Z -> Cursor
}.

(** A cache [entry], through the two methods of [entry.values] that are
    used: [Len] and [Contains]. *)
Record entry : Type := {
  values_Len : Z;
  values_Contains : Z -> Z -> bool
}.

(** The engine: the snapshot of TSM files in the order [ForEachFile] visits
    them, and the cache entries in the order [ApplyEntryFn] visits them. *)
Record Engine : Type := {
  FileStore : list TSMFile;
  Cache : list (string * entry)
}.

(** Modelled from the spec: [cursors.StringSliceIterator] is not among the
    sources; it is the materialised result sequence together with the
    statistics of the scan. *)
Record StringSliceIterator : Type := {
  iterValues : list string;
  iterStats : CursorStats
}.

Definition NewStringSliceIteratorWithStats (s : list string) (st : CursorStats)
  : StringSliceIterator :=
  {| iterValues := s; iterStats := st |}.

(** The key codec of packages tsdb, models and tsm1.  Its functions are not
    among the sources; the development is parametric in them. *)
Class KeyCodec : Type := {
  EncodeName : Z -> Z -> string;
  EscapeMeasurement : string -> string;
  SeriesAndFieldFromCompositeKey : string -> string * string;
  ParseMeasurement : string -> string
}.

(** ** The state the closures of [MeasurementNames] share *)

(** The captured variables [tsmValues], [stats] and [canceled], and the
    logical clock: the number of polls of the context made so far. *)
Record scanState : Type := {
  tsmValues : gset string;
  stats : CursorStats;
  canceled : bool;
  polls : nat
}.

Definition initState : scanState :=
  {| tsmValues := ∅; stats := zeroStats; canceled := false; polls := 0 |}.

(** Strictly ascending in the byte-wise order. *)
Definition string_lt (s1 s2 : string) : Prop := String.ltb s1 s2 = true.

(** Go's [sort.Strings]: ascending in the byte-wise order of strings. *)
Definition sort_Strings (l : list string) : list string :=
  merge_sort String.le l.

(** Modelled from the spec: [FileStore.ForEachFile] is not among the sources.
    It applies the callback to the files of the snapshot in turn and stops as
    soon as the callback answers [false]. *)
Fixpoint ForEachFile (files : list TSMFile)
    (fn : TSMFile -> scanState -> bool * scanState) (st : scanState) : scanState :=
  match files with
  | [] => st
  | f :: rest =>
      let '(continue, st') := fn f st in
      if continue then ForEachFile rest fn st' else st'
  end.

(** Modelled from the spec: [Cache.ApplyEntryFn] is not among the sources.
    It applies the visitor to every entry in turn; the first error a visitor
    returns ends the scan and is the result. *)
Fixpoint ApplyEntryFn (entries : list (string * entry))
    (fn : string -> entry -> scanState -> scanState * option Error)
    (st : scanState) : scanState * option Error :=
  match entries with
  | [] => (st, None)
  | (k, en) :: rest =>
      match fn k en st with
      | (st', None) => ApplyEntryFn rest fn st'
      | (st', Some err) => (st', Some err)
      end
  end.

Section MeasurementSchema.
Context `{codec : KeyCodec}.

(** The measurement of a composite key, as both closures compute it. *)
Definition measurementOf (sfkey : string) : string :=
  let '(key, _) := SeriesAndFieldFromCompositeKey sfkey in
  ParseMeasurement key.

(** The loop [for i := 0; iter.Next(); i++] over the cursor of one file.
    The result is the set of measurements, the statistics of the cursor
    and the final value of [i]. *)
Fixpoint scanKeys (prefix : string) (iter : Cursor) (vals : gset string)
    (istats : CursorStats) (i : nat) : gset string * CursorStats * nat :=
  match iter with
  | [] => (vals, istats, i)
  | it :: rest =>
      let sfkey := itemKey it in
      if negb (String.prefix prefix sfkey) then
        (* end of org+bucket *)
        (vals, istats, i)
      else
        let name := measurementOf sfkey in
        if (String.length name =? 0)%nat then
          scanKeys prefix rest vals istats (S i)
        else if bool_decide (name ∈ vals) then
          scanKeys prefix rest vals istats (S i)
        else
          let istats' := CursorStats_Add istats (itemCost it) in
          if itemHasData it then
            scanKeys prefix rest ({[name]} ∪ vals) istats' (S i)
          else
            scanKeys prefix rest vals istats' (S i)
  end.

(** The body of the callback given to [ForEachFile], after the context
    check. *)
Definition visitFile (prefix : string) (start end_ : Z) (f : TSMFile)
    (st : scanState) : scanState :=
  if OverlapsTimeRange f start end_ && OverlapsKeyPrefixRange f prefix prefix then
    let iter := TimeRangeIterator f prefix start end_ in
    let '(vals, istats, _) := scanKeys prefix iter (tsmValues st) zeroStats 0 in
    {| tsmValues := vals;
       stats := CursorStats_Add (stats st) istats;
       canceled := canceled st;
       polls := polls st |}
  else st.

(** One poll of the context that finds it live: the clock advances. *)
Definition tick (st : scanState) : scanState :=
  {| tsmValues := tsmValues st; stats := stats st;
     canceled := canceled st; polls := S (polls st) |}.

(** One poll of the context that finds it done: [canceled = true]. *)
Definition markCanceled (st : scanState) : scanState :=
  {| tsmValues := tsmValues st; stats := stats st;
     canceled := true; polls := S (polls st) |}.

(** The callback given to [ForEachFile]: the context is checked before the
    file is accessed. *)
Definition fileCallback (ctx : Context) (prefix : string) (start end_ : Z)
    (f : TSMFile) (st : scanState) : bool * scanState :=
  if Done ctx (polls st) then (false, markCanceled st)
  else (true, visitFile prefix start end_ f (tick st)).

(** The segment phase. *)
Definition scanFiles (e : Engine) (ctx : Context) (prefix : string)
    (start end_ : Z) : scanState :=
  ForEachFile (FileStore e) (fileCallback ctx prefix start end_) initState.

(** The visitor given to [Cache.ApplyEntryFn]. *)
Definition cacheVisitor (prefixStr : string) (start end_ : Z)
    (sfkey : string) (en : entry) (st : scanState) : scanState * option Error :=
  if negb (String.prefix prefixStr sfkey) then (st, None)
  else
    let name := measurementOf sfkey in
    if (String.length name =? 0)%nat then (st, None)
    else if bool_decide (name ∈ tsmValues st) then (st, None)
    else
      let stats' :=
        {| ScannedValues := int_add (ScannedValues (stats st)) (values_Len en);
           ScannedBytes := int_add (ScannedBytes (stats st))
                                   (int_mul (values_Len en) 8) |} in
      let vals' :=
        if values_Contains en start end_
        then {[name]} ∪ tsmValues st else tsmValues st in
      ({| tsmValues := vals'; stats := stats';
          canceled := canceled st; polls := polls st |}, None).

(** The type of a cache visitor, given the prefix and the time range. *)
Definition CacheVisitor : Type :=
  string -> Z -> Z -> string -> entry -> scanState -> scanState * option Error.

(** The body of [MeasurementNames], with the closure it passes to
    [ApplyEntryFn] as a parameter.  The result is the pair the Go function
    returns: the iterator ([None] is a nil interface value) and the
    error. *)
Definition MeasurementNamesWith (visit : CacheVisitor) (e : Engine)
    (ctx : Context) (orgID bucketID : Z) (start end_ : Z)
    : option StringSliceIterator * option Error :=
  let orgBucket := EncodeName orgID bucketID in
  let prefix := EscapeMeasurement orgBucket in
  let st := scanFiles e ctx prefix start end_ in
  if canceled st then
    (Some (NewStringSliceIteratorWithStats [] (stats st)), Err ctx (polls st))
  else
    (* the context is not checked while the cache is scanned *)
    let prefixStr := prefix in
    let '(st', _) := ApplyEntryFn (Cache e) (visit prefixStr start end_) st in
    let vals := sort_Strings (elements (tsmValues st')) in
    (Some (NewStringSliceIteratorWithStats vals (stats st')), None).

Definition MeasurementNames : Engine -> Context -> Z -> Z -> Z -> Z ->
    option StringSliceIterator * option Error :=
  MeasurementNamesWith cacheVisitor.

(** [MeasurementTagValues] and [MeasurementTagKeys]: both return
    [nil, nil]. *)
Definition MeasurementTagValues (e : Engine) (ctx : Context)
    (orgID bucketID : Z) (measurement tagKey : string) (start end_ : Z)
    (predicate : option string)
    : option StringSliceIterator * option Error :=
  (None, None).

Definition MeasurementTagKeys (e : Engine) (ctx : Context)
    (orgID bucketID : Z) (measurement : string) (start end_ : Z)
    (predicate : option string)
    : option StringSliceIterator * option Error :=
  (None, None).

(** ** Notions used to state the properties of the scan *)

(** The namespace prefix [MeasurementNames] computes. *)
Definition namespacePrefix (orgID bucketID : Z) : string :=
  EscapeMeasurement (EncodeName orgID bucketID).

(** The test that guards the scan of a file. *)
Definition overlaps (prefix : string) (start end_ : Z) (f : TSMFile) : bool :=
  OverlapsTimeRange f start end_ && OverlapsKeyPrefixRange f prefix prefix.

(** The key at this position of a cursor gives a positive signal for the
    measurement [n]: it carries the prefix, its measurement is [n], not
    empty, and the cursor reports data in the time range. *)
Definition positiveItem (prefix : string) (it : CursorItem) (n : string) : Prop :=
  String.prefix prefix (itemKey it) = true
  /\ measurementOf (itemKey it) = n
  /\ n <> ""
  /\ itemHasData it = true.

(** The cache entry gives a positive signal for the measurement [n]. *)
Definition positiveEntry (prefix : string) (start end_ : Z)
    (sfkey : string) (en : entry) (n : string) : Prop :=
  String.prefix prefix sfkey = true
  /\ measurementOf sfkey = n
  /\ n <> ""
  /\ values_Contains en start end_ = true.

(** Some scanned file has a key with a positive signal for [n]. *)
Definition segmentSignal (prefix : string) (start end_ : Z)
    (files : list TSMFile) (n : string) : Prop :=
  exists f it, f ∈ files /\ overlaps prefix start end_ f = true
    /\ it ∈ TimeRangeIterator f prefix start end_
    /\ positiveItem prefix it n.

(** Some cache entry has a positive signal for [n]. *)
Definition cacheSignal (prefix : string) (start end_ : Z)
    (entries : list (string * entry)) (n : string) : Prop :=
  exists sfkey en, (sfkey, en) ∈ entries /\ positiveEntry prefix start end_ sfkey en n.

(** The measurement [n] appears in a segment: a scanned file has a key
    with a positive signal for [n], and the keys before it in the cursor
    carry the prefix. *)
Definition inSegment (prefix : string) (start end_ : Z)
    (files : list TSMFile) (n : string) : Prop :=
  exists f l1 it l2, f ∈ files /\ overlaps prefix start end_ f = true
    /\ TimeRangeIterator f prefix start end_ = (l1 ++ it :: l2)%list
    /\ Forall (fun x => String.prefix prefix (itemKey x) = true) l1
    /\ positiveItem prefix it n.

(** The files in turn, each after a poll that found the context live. *)
Definition processFiles (prefix : string) (start end_ : Z)
    (files : list TSMFile) (st : scanState) : scanState :=
  fold_left (fun st f => visitFile prefix start end_ f (tick st)) files st.

(** The visitor applied to every entry in turn, errors left aside. *)
Definition visitEntries (visit : string -> entry -> scanState -> scanState * option Error)
    (entries : list (string * entry)) (st : scanState) : scanState :=
  fold_left (fun st ke => (visit ke.1 ke.2 st).1) entries st.

(** The charge of one cache entry: its value count, and eight bytes (the
    size of a timestamp) for each value. *)
Definition chargeEntry (en : entry) (s : CursorStats) : CursorStats :=
  {| ScannedValues := int_add (ScannedValues s) (values_Len en);
     ScannedBytes := int_add (ScannedBytes s) (int_mul (values_Len en) 8) |}.

(** The statistics of the cache phase as the design document words them:
    every entry whose key carries the prefix is charged. *)
Definition chargeEveryPrefixedEntry (prefix : string)
    (entries : list (string * entry)) (s : CursorStats) : CursorStats :=
  fold_left (fun s ke => if String.prefix prefix ke.1 then chargeEntry ke.2 s else s)
    entries s.

(** The context is live at every poll of the segment phase: the run is
    not canceled. *)
Definition uncanceled (e : Engine) (ctx : Context) : Prop :=
  forall k, (k < length (FileStore e))%nat -> Done ctx k = false.

(** The context fires during the segment phase: the poll of index [d],
    made before the file of index [d] is accessed, is the first to find
    it done. *)
Definition firesInSegmentPhase (e : Engine) (ctx : Context) (d : nat) : Prop :=
  cancelAt ctx = Some d /\ (d < length (FileStore e))%nat.

(** The state after the segment phase of a run that is not canceled. *)
Definition segmentState (e : Engine) (orgID bucketID start end_ : Z) : scanState :=
  processFiles (namespacePrefix orgID bucketID) start end_ (FileStore e) initState.

(** The state after both phases of a run that is not canceled. *)
Definition finalState (e : Engine) (orgID bucketID start end_ : Z) : scanState :=
  visitEntries (cacheVisitor (namespacePrefix orgID bucketID) start end_)
    (Cache e) (segmentState e orgID bucketID start end_).

End MeasurementSchema.

(** ** A reference codec and a small engine *)

(** Modelled from the spec: the key codec is not among the sources.  The
    design document gives the composite key as
    [NamespacePrefix || EscapedSeriesKey || 0x00 || FieldKey], the namespace
    prefix as the escaped, fixed-width encoding of the two 64-bit
    identifiers, and the measurement as the first segment of the series key,
    up to the first unescaped comma; a key without separator has no
    measurement. *)
Module SpecCodec.

Definition separator : ascii := "000"%char.
Definition backslash : ascii := "\"%char.
Definition comma : ascii := ","%char.

Definition byteOf (z : Z) : ascii := ascii_of_N (Z.to_N (Z.land z 255)).

(** Big-endian encoding of a 64-bit identifier. *)
Definition be64 (z : Z) : string :=
  string_of_list_ascii
    (map (fun k => byteOf (Z.shiftr z (8 * k))) [7; 6; 5; 4; 3; 2; 1; 0]).

Definition isStructural (c : ascii) : bool :=
  bool_decide (c = separator) || bool_decide (c = backslash)
  || bool_decide (c = comma).

Fixpoint escape (s : string) : string :=
  match s with
  | EmptyString => EmptyString
  | String c s' =>
      if isStructural c then String backslash (String c (escape s'))
      else String c (escape s')
  end.

(** Splits at the first unescaped [stop] byte: the part before it, and the
    part after it when there is one. *)
Fixpoint splitUnescaped (stop : ascii) (s : string) : string * option string :=
  match s with
  | EmptyString => (EmptyString, None)
  | String c s' =>
      if bool_decide (c = stop) then (EmptyString, Some s')
      else if bool_decide (c = backslash) then
        match s' with
        | EmptyString => (String c EmptyString, None)
        | String c' s'' =>
            let '(a, b) := splitUnescaped stop s'' in
            (String c (String c' a), b)
        end
      else
        let '(a, b) := splitUnescaped stop s' in (String c a, b)
  end.

(** Drops [n] escaped bytes. *)
Fixpoint dropEscaped (n : nat) (s : string) : option string :=
  match n with
  | O => Some s
  | S n' =>
      match s with
      | EmptyString => None
      | String c s' =>
          if bool_decide (c = backslash) then
            match s' with
            | EmptyString => None
            | String _ s'' => dropEscaped n' s''
            end
          else dropEscaped n' s'
      end
  end.

Definition seriesAndField (sfkey : string) : string * string :=
  match splitUnescaped separator sfkey with
  | (series, Some field) => (series, field)
  | (_, None) => (EmptyString, EmptyString)
  end.

Definition parseMeasurement (series : string) : string :=
  match dropEscaped 16 series with
  | Some rest => fst (splitUnescaped comma rest)
  | None => EmptyString
  end.

Definition codec : KeyCodec :=
  {| EncodeName := fun org bucket => be64 org ++ be64 bucket;
     EscapeMeasurement := escape;
     SeriesAndFieldFromCompositeKey := seriesAndField;
     ParseMeasurement := parseMeasurement |}.

End SpecCodec.

Module Demo.
Import SpecCodec.

Definition org : Z := 0x0102030405060708.
Definition bucket : Z := 0x1112131415161718.
Definition otherBucket : Z := 0x2122232425262728.

Definition prefixOf (o b : Z) : string :=
  @EscapeMeasurement codec (@EncodeName codec o b).

(** The composite key of a series and a field under a namespace. *)
Definition compositeKey (o b : Z) (series field : string) : string :=
  prefixOf o b ++ series ++ String separator field.

Definition item (key : string) (hasData : bool) (values bytes : Z) : CursorItem :=
  {| itemKey := key; itemHasData := hasData;
     itemCost := {| ScannedValues := values; ScannedBytes := bytes |} |}.

(** A TSM file covering the time range [tmin, tmax] whose cursor yields
    the given items. *)
Definition file (tmin tmax : Z) (items : Cursor) : TSMFile :=
  {| OverlapsTimeRange := fun start end_ => (tmin <=? end_)%Z && (start <=? tmax)%Z;
     OverlapsKeyPrefixRange := fun _ _ => true;
     TimeRangeIterator := fun _ _ _ => items |}.

(** A cache entry holding values at the given timestamps. *)
Definition entryAt (ts : list Z) : entry :=
  {| values_Len := Z.of_nat (length ts);
     values_Contains := fun start end_ =>
       existsb (fun t => (start <=? t)%Z && (t <=? end_)%Z) ts |}.

Definition cpuKey : string := compositeKey org bucket "cpu,host=a" "usage".
Definition memKey : string := compositeKey org bucket "mem,host=a" "free".
Definition diskKey : string := compositeKey org bucket "disk" "used".
Definition foreignKey : string := compositeKey org otherBucket "net" "rx".
(** A key of the namespace that lacks the separator. *)
Definition brokenKey : string := prefixOf org bucket ++ "swap,host=a".

Definition segmentA : TSMFile :=
  file 0 10 [item cpuKey true 4 32; item memKey true 2 16].
Definition segmentB : TSMFile :=
  file 11 20 [item diskKey true 3 24].

(** The scenario of the design document: two segments and a cache entry
    for a measurement that a segment has as well. *)
Definition engine : Engine :=
  {| FileStore := [segmentA; segmentB];
     Cache := [(cpuKey, entryAt [15])] |}.

Definition never : Context := {| cancelAt := None; cause := Canceled |}.
Definition firesAt (d : nat) : Context := {| cancelAt := Some d; cause := Canceled |}.

End Demo.

(** * The configurations of the command line client

    A shallow embedding of [cmd/influx/config/config.go]: [Configs.Switch],
    [ParseConfigs], [ParseActiveConfig], [ParsePreviousActive] and
    [blockBadName]. *)
Module config.

(** The error codes of package influxdb that the package uses. *)
Inductive ErrCode : Type := ENotFound | EInvalid | EConflict.

(** An [error]: an [*influxdb.Error] with its code and message, or an
    error of the TOML decoder. *)
Inductive error : Type :=
  | InfluxError (code : ErrCode) (msg : string)
  | DecodeError (msg : string).

Record Config : Type := {
  Name : string;
  Host : string;
  Token : string;
  Org : string;
  Active : bool;
  PreviousActive : bool
}.

Definition DefaultConfig : Config :=
  {| Name := "default"; Host := "http://localhost:9999"; Token := ""; Org := "";
     Active := true; PreviousActive := false |}.

(** The zero value [Config{}]. *)
Definition zeroConfig : Config :=
  {| Name := ""; Host := ""; Token := ""; Org := "";
     Active := false; PreviousActive := false |}.

(** [Configs] is [map[string]Config]. *)
Abbreviation Configs := (gmap string Config).

(** The order in which one [range] loop goes through a map: Go leaves it
    unspecified, the entries come in some order, each once. *)
Definition rangeOrder : Type :=
  { o : Configs -> list (string * Config) | forall m, o m ≡ₚ map_to_list m }.

Definition entriesIn (o : rangeOrder) (m : Configs) : list (string * Config) :=
  proj1_sig o m.

(** The loop [for k, v := range m { v = f(k, v); m[k] = v }] over the
    entries in the given order. *)
Fixpoint rangeAssign (f : string -> Config -> Config)
    (l : list (string * Config)) (m : Configs) : Configs :=
  match l with
  | [] => m
  | (k, v) :: rest => rangeAssign f rest (<[k := f k v]> m)
  end.

(** The double quote character. *)
Definition dq : string := String (ascii_of_nat 34) EmptyString.

Section Package.
(** [strconv.Quote], which the verb [%q] of [fmt.Sprintf] applies. *)
Variable quote : string -> string.
(** [toml.DecodeReader] into an empty [Configs]: the decoded map and the
    error of the decoder. *)
Variable Reader : Type.
Variable DecodeReader : Reader -> Configs * option error.

(** The body of the loop of [Switch]. *)
Definition switchEntry (name k : string) (v : Config) : Config :=
  let v1 := {| Name := Name v; Host := Host v; Token := Token v; Org := Org v;
               Active := Active v; PreviousActive := Active v |} in
  {| Name := Name v1; Host := Host v1; Token := Token v1; Org := Org v1;
     Active := bool_decide (k = name); PreviousActive := PreviousActive v1 |}.

(** [Configs.Switch]: the map after the call and the error. *)
Definition Switch (o : rangeOrder) (pp : Configs) (name : string)
    : Configs * option error :=
  match pp !! name with
  | None =>
      (pp, Some (InfluxError ENotFound ("config " ++ quote name ++ " is not found")))
  | Some _ => (rangeAssign (switchEntry name) (entriesIn o pp) pp, None)
  end.

(** The loop of [blockBadName], with its early return. *)
Fixpoint blockBadNameLoop (l : list (string * Config)) : option error :=
  match l with
  | [] => None
  | (n, _) :: rest =>
      if bool_decide (n = "-") then
        Some (InfluxError EInvalid (dq ++ "-" ++ dq ++ " is not a valid config name"))
      else blockBadNameLoop rest
  end.

Definition blockBadName (o : rangeOrder) (pp : Configs) : option error :=
  blockBadNameLoop (entriesIn o pp).

(** The body of the loop of [ParseConfigs]. *)
Definition setName (n : string) (p : Config) : Config :=
  {| Name := n; Host := Host p; Token := Token p; Org := Org p;
     Active := Active p; PreviousActive := PreviousActive p |}.

(** [ParseConfigs]: the map is returned together with the error of the
    decoder, whatever it is. *)
Definition ParseConfigs (o : rangeOrder) (r : Reader) : Configs * option error :=
  let '(pp, err) := DecodeReader r in
  (rangeAssign setName (entriesIn o pp) pp, err).

(** The loop of [parseActiveConfig], with its early return on a second
    activated config, and the two returns that follow the loop. *)
Fixpoint activeLoop (currentOrPrevious : bool) (previousText : string)
    (l : list (string * Config)) (activated : Config) (hasActive : bool)
    : Config * option error :=
  match l with
  | [] =>
      if hasActive then (activated, None)
      else (DefaultConfig,
            Some (InfluxError ENotFound (previousText ++ "activated config is not found")))
  | (_, p) :: rest =>
      let check := if currentOrPrevious then Active p else PreviousActive p in
      if check && negb hasActive then
        activeLoop currentOrPrevious previousText rest p true
      else if check then
        (DefaultConfig,
         Some (InfluxError EConflict
                 ("more than one " ++ previousText ++ "activated configs found")))
      else activeLoop currentOrPrevious previousText rest activated hasActive
  end.

Definition parseActiveConfig (o1 o2 : rangeOrder) (r : Reader)
    (currentOrPrevious : bool) : Config * option error :=
  let previousText := if currentOrPrevious then "" else "previous " in
  let '(pp, err) := ParseConfigs o1 r in
  match err with
  | Some err => (DefaultConfig, Some err)
  | None => activeLoop currentOrPrevious previousText (entriesIn o2 pp) zeroConfig false
  end.

Definition ParsePreviousActive (o1 o2 : rangeOrder) (r : Reader) : Config * option error :=
  parseActiveConfig o1 o2 r false.

Definition ParseActiveConfig (o1 o2 : rangeOrder) (r : Reader) : Config * option error :=
  parseActiveConfig o1 o2 r true.

(** The flag the loop of [parseActiveConfig] checks. *)
Definition flagged (currentOrPrevious : bool) (p : Config) : bool :=
  if currentOrPrevious then Active p else PreviousActive p.

End Package.

(** The order of [map_to_list]. *)
Definition listOrder : rangeOrder :=
  exist (fun o : Configs -> list (string * Config) => forall m, o m ≡ₚ map_to_list m)
    map_to_list (fun m => Permutation_refl (map_to_list m)).

End config.

(** * The authorizing wrapper of the user resource mapping service

    A shallow embedding of [AuthedURMService] of package tenant.  The
    services it wraps are interfaces; they act on a state the wrapper does
    not see, which is passed along explicitly. *)
Module tenant.

Section Services.
(** The state behind the services, the request context, identifiers,
    resource types, mappings, filters, find options and errors. *)
Variables (World Ctx ID ResourceType URM Filter FindOptions error : Type).

(** The fields of [influxdb.UserResourceMapping] that are read, and the
    filter [UserResourceMappingFilter{ResourceID: .., UserID: ..}]. *)
Variable mappingResourceType : URM -> ResourceType.
Variable mappingResourceID : URM -> ID.
Variable mappingUserID : URM -> ID.
Variable filterOf : ID -> ID -> Filter.

(** [influxdb.UserResourceMappingService], the field [s]. *)
Variable sFindUserResourceMappings :
  Ctx -> Filter -> list FindOptions -> World -> (list URM * Z * option error) * World.
Variable sCreateUserResourceMapping : Ctx -> URM -> World -> option error * World.
Variable sDeleteUserResourceMapping : Ctx -> ID -> ID -> World -> option error * World.

(** [OrgUrmService], the field [orgService]. *)
Variable FindResourceOrganizationID :
  Ctx -> ResourceType -> ID -> World -> (ID * option error) * World.

(** [authorizer.AuthorizeWrite], of which only the error is used, and
    [authorizer.AuthorizeFindUserResourceMappings], which is given the
    organization service. *)
Variable AuthorizeWrite : Ctx -> ResourceType -> ID -> ID -> option error.
Variable AuthorizeFindUserResourceMappings :
  Ctx -> list URM -> World -> (list URM * Z * option error) * World.

Definition FindUserResourceMappings (ctx : Ctx) (filter : Filter)
    (opt : list FindOptions) (w : World) : (list URM * Z * option error) * World :=
  let '((urms, _, err), w1) := sFindUserResourceMappings ctx filter opt w in
  match err with
  | Some err => (([], 0, Some err), w1)
  | None => AuthorizeFindUserResourceMappings ctx urms w1
  end.

Definition CreateUserResourceMapping (ctx : Ctx) (m : URM) (w : World)
    : option error * World :=
  let '((orgID, err), w1) :=
    FindResourceOrganizationID ctx (mappingResourceType m) (mappingResourceID m) w in
  match err with
  | Some err => (Some err, w1)
  | None =>
      match AuthorizeWrite ctx (mappingResourceType m) (mappingResourceID m) orgID with
      | Some err => (Some err, w1)
      | None => sCreateUserResourceMapping ctx m w1
      end
  end.

(** The loop of [DeleteUserResourceMapping]. *)
Fixpoint deleteEach (ctx : Ctx) (urms : list URM) (w : World) : option error * World :=
  match urms with
  | [] => (None, w)
  | urm :: rest =>
      let '((orgID, err), w1) :=
        FindResourceOrganizationID ctx (mappingResourceType urm)
          (mappingResourceID urm) w in
      match err with
      | Some err => (Some err, w1)
      | None =>
          match AuthorizeWrite ctx (mappingResourceType urm)
                  (mappingResourceID urm) orgID with
          | Some err => (Some err, w1)
          | None =>
              let '(err, w2) :=
                sDeleteUserResourceMapping ctx (mappingResourceID urm)
                  (mappingUserID urm) w1 in
              match err with
              | Some err => (Some err, w2)
              | None => deleteEach ctx rest w2
              end
          end
      end
  end.

Definition DeleteUserResourceMapping (ctx : Ctx) (resourceID userID : ID) (w : World)
    : option error * World :=
  let f := filterOf resourceID userID in
  let '((urms, _, err), w1) := sFindUserResourceMappings ctx f [] w in
  match err with
  | Some err => (Some err, w1)
  | None => deleteEach ctx urms w1
  end.

(** What the loop of [DeleteUserResourceMapping] observes for one mapping
    in a given state: the organization the lookup finds, with its error,
    and the error of the store's delete in the state the lookup leaves. *)
Definition organizationOf (ctx : Ctx) (urm : URM) (w : World) : ID * option error :=
  (FindResourceOrganizationID ctx (mappingResourceType urm) (mappingResourceID urm) w).1.

Definition deleteOf (ctx : Ctx) (urm : URM) (w : World) : option error :=
  (sDeleteUserResourceMapping ctx (mappingResourceID urm) (mappingUserID urm)
     (FindResourceOrganizationID ctx (mappingResourceType urm)
        (mappingResourceID urm) w).2).1.

(** The state in which the mapping of index [i] is reached, the mappings
    before it having been looked up and deleted. *)
Fixpoint worldAt (ctx : Ctx) (urms : list URM) (w : World) (i : nat) : World :=
  match i, urms with
  | S i', urm :: rest =>
      worldAt ctx rest
        (sDeleteUserResourceMapping ctx (mappingResourceID urm) (mappingUserID urm)
           (FindResourceOrganizationID ctx (mappingResourceType urm)
              (mappingResourceID urm) w).2).2
        i'
  | _, _ => w
  end.

(** The mapping passes in this state: its organization is found, the
    write is authorized under that organization, and the store deletes
    the mapping. *)
Definition authorizedAndDeleted (ctx : Ctx) (urm : URM) (w : World) : Prop :=
  exists orgID,
    organizationOf ctx urm w = (orgID, None)
    /\ AuthorizeWrite ctx (mappingResourceType urm) (mappingResourceID urm) orgID = None
    /\ deleteOf ctx urm w = None.

(** The mapping fails in this state with the error [err]: the lookup of
    its organization fails, or the write is not authorized under the
    organization found, in both cases before the store's delete is called,
    or the store's delete, called, fails. *)
Definition failsWith (ctx : Ctx) (urm : URM) (w : World)
    (err : error) (called : bool) : Prop :=
  match organizationOf ctx urm w with
  | (_, Some e) => err = e /\ called = false
  | (orgID, None) =>
      match AuthorizeWrite ctx (mappingResourceType urm) (mappingResourceID urm) orgID with
      | Some e => err = e /\ called = false
      | None => deleteOf ctx urm w = Some err /\ called = true
      end
  end.

End Services.

(** Services that keep a record of the calls of the store's delete and
    create: the state is paired with the log of the calls. *)
Section Recording.
Variables (World Ctx ID ResourceType URM Filter FindOptions error : Type).

Inductive StoreCall : Type :=
  | CallCreate (m : URM)
  | CallDelete (resourceID userID : ID).

Definition Recorded : Type := World * list StoreCall.

Definition recordFind {R : Type} (find : World -> R * World) (w : Recorded)
    : R * Recorded :=
  let '(r, w1) := find w.1 in (r, (w1, w.2)).

Definition recordCreate
    (create : Ctx -> URM -> World -> option error * World)
    (ctx : Ctx) (m : URM) (w : Recorded) : option error * Recorded :=
  let '(err, w1) := create ctx m w.1 in (err, (w1, (w.2 ++ [CallCreate m])%list)).

Definition recordDelete
    (delete : Ctx -> ID -> ID -> World -> option error * World)
    (ctx : Ctx) (resourceID userID : ID) (w : Recorded) : option error * Recorded :=
  let '(err, w1) := delete ctx resourceID userID w.1 in
  (err, (w1, (w.2 ++ [CallDelete resourceID userID])%list)).

End Recording.

End tenant.

Module configDemo.
Import config.

(** A quoting function and a reader that holds what it decodes to. *)
Definition quote (s : string) : string := dq ++ s ++ dq.
Definition Reader : Type := Configs * option error.
Definition DecodeReader (r : Reader) : Configs * option error := r.

Definition host (h : string) (active : bool) : Config :=
  {| Name := ""; Host := h; Token := ""; Org := "";
     Active := active; PreviousActive := false |}.

(** The configurations of the package's test of [Switch]. *)
Definition three : Configs :=
  <["a1" := host "host1" false]>
    (<["a2" := host "host2" false]> (<["a3" := host "host3" true]> ∅)).

Definition conflicted : Configs :=
  <["a1" := host "host1" true]> (<["a2" := host "host2" true]> ∅).

Definition badName : Configs := <["-" := zeroConfig]> ∅.

End configDemo.

Module DemoMore.
Import SpecCodec Demo.

(** A file of a later time range. *)
Definition segmentLate : TSMFile := file 100 200 [item diskKey true 5 40].

End DemoMore.

(** Two states of the scan that differ at most in the clock. *)
Definition sameScan (st st' : scanState) : Prop :=
  tsmValues st = tsmValues st' /\ stats st = stats st' /\ canceled st = canceled st'.

Local Open Scope list_scope.

(** ** Strings and sorting *)

Lemma length_zero_iff_empty (s : string) :
  (String.length s =? 0)%nat = true <-> s = "".
Proof.
  destruct s; simpl; split; intros Hs; congruence.
Qed.

Lemma length_zero_false (s : string) :
  (String.length s =? 0)%nat = false <-> s <> "".
Proof.
  rewrite <- length_zero_iff_empty. destruct (String.length s =? 0)%nat; split; congruence.
Qed.

Lemma le_ne_lt (s1 s2 : string) : String.le s1 s2 -> s1 <> s2 -> string_lt s1 s2.
Proof.
  unfold String.le, string_lt, String.leb, String.ltb.
  destruct (s1 ?= s2)%string eqn:Hc; intros Hle Hne; try done.
  apply String.compare_eq_iff in Hc. done.
Qed.

Lemma string_compare_refl (s : string) : (s ?= s)%string = Eq.
Proof.
  induction s as [|a s IH]; simpl; [done|].
  unfold Ascii.compare. rewrite N.compare_refl. exact IH.
Qed.

Lemma string_lt_irrefl (s : string) : ~ string_lt s s.
Proof.
  unfold string_lt, String.ltb. by rewrite string_compare_refl.
Qed.

Lemma sort_Strings_perm (l : list string) : sort_Strings l ≡ₚ l.
Proof. apply merge_sort_Permutation. Qed.

Lemma sort_Strings_sorted (l : list string) : StronglySorted String.le (sort_Strings l).
Proof. apply (StronglySorted_merge_sort String.le). Qed.

Lemma StronglySorted_le_NoDup_lt (l : list string) :
  StronglySorted String.le l -> NoDup l -> StronglySorted string_lt l.
Proof.
  induction 1 as [|x l Hl IH Hx]; intros Hnd; [constructor|].
  apply NoDup_cons in Hnd as [Hnotin Hnd].
  constructor; [by apply IH|].
  apply Forall_forall. intros y Hy.
  apply le_ne_lt.
  - by eapply Forall_forall in Hx.
  - intros ->. done.
Qed.

Lemma sort_Strings_elements (X : gset string) :
  StronglySorted string_lt (sort_Strings (elements X))
  /\ NoDup (sort_Strings (elements X))
  /\ (forall n, n ∈ sort_Strings (elements X) <-> n ∈ X).
Proof.
  assert (Hnd : NoDup (sort_Strings (elements X))).
  { rewrite sort_Strings_perm. apply NoDup_elements. }
  split; [|split]; [|done|].
  - apply StronglySorted_le_NoDup_lt; [apply sort_Strings_sorted|done].
  - intros n. rewrite sort_Strings_perm. apply elem_of_elements.
Qed.

(** ** The key loop over one cursor *)

Section KeyLoop.
Context `{codec : KeyCodec}.
Variable prefix : string.

(** One iteration of the loop on an in-prefix key. *)
Lemma scanKeys_cons_prefix it rest vals s i :
  String.prefix prefix (itemKey it) = true ->
  scanKeys prefix (it :: rest) vals s i =
    let name := measurementOf (itemKey it) in
    if (String.length name =? 0)%nat then scanKeys prefix rest vals s (S i)
    else if bool_decide (name ∈ vals) then scanKeys prefix rest vals s (S i)
    else if itemHasData it
         then scanKeys prefix rest ({[name]} ∪ vals) (CursorStats_Add s (itemCost it)) (S i)
         else scanKeys prefix rest vals (CursorStats_Add s (itemCost it)) (S i).
Proof. intros Hp. simpl. by rewrite Hp. Qed.

Lemma scanKeys_cons_break it rest vals s i :
  String.prefix prefix (itemKey it) = false ->
  scanKeys prefix (it :: rest) vals s i = (vals, s, i).
Proof. intros Hp. simpl. by rewrite Hp. Qed.

Lemma scanKeys_mono iter : forall vals s i,
  vals ⊆ (scanKeys prefix iter vals s i).1.1.
Proof.
  induction iter as [|it rest IH]; intros vals s i; [done|].
  destruct (String.prefix prefix (itemKey it)) eqn:Hp.
  - rewrite scanKeys_cons_prefix by done. cbv zeta.
    repeat case_match; try apply IH.
    etrans; [|apply IH]. set_solver.
  - by rewrite scanKeys_cons_break.
Qed.

Lemma scanKeys_sound iter : forall vals s i n,
  n ∈ (scanKeys prefix iter vals s i).1.1 ->
  n ∈ vals \/ exists it, it ∈ iter /\ positiveItem prefix it n.
Proof.
  induction iter as [|it rest IH]; intros vals s i n; [by left|].
  destruct (String.prefix prefix (itemKey it)) eqn:Hp.
  - rewrite scanKeys_cons_prefix by done. cbv zeta.
    destruct (String.length _ =? 0)%nat eqn:Hlen;
      [|case_bool_decide; [|destruct (itemHasData it) eqn:Hd]];
      intros Hn; apply IH in Hn as [Hn | (it' & Hin & Hpos)];
      try (by left); try (right; exists it'; split; [by right|done]).
    apply elem_of_union in Hn as [->%elem_of_singleton | Hn]; [|by left].
    right. exists it. split; [by left|].
    repeat split; try done. by apply length_zero_false.
  - rewrite scanKeys_cons_break by done. by left.
Qed.

(** A positive key that the loop reaches is recorded. *)
Lemma scanKeys_complete l1 : forall it l2 vals s i n,
  Forall (fun x => String.prefix prefix (itemKey x) = true) l1 ->
  positiveItem prefix it n ->
  n ∈ (scanKeys prefix (l1 ++ it :: l2) vals s i).1.1.
Proof.
  induction l1 as [|x l1 IH]; intros it l2 vals s i n Hall Hpos.
  - destruct Hpos as (Hp & Hm & Hne & Hd). simpl app.
    rewrite scanKeys_cons_prefix by done. cbv zeta.
    rewrite Hm, Hd. apply length_zero_false in Hne. rewrite Hne.
    case_bool_decide; apply scanKeys_mono; set_solver.
  - apply Forall_cons in Hall as [Hx Hall]. simpl app.
    rewrite scanKeys_cons_prefix by done. cbv zeta.
    repeat case_match; by apply IH.
Qed.

Lemma scanKeys_no_empty iter : forall vals s i,
  "" ∉ vals -> "" ∉ (scanKeys prefix iter vals s i).1.1.
Proof.
  intros vals s i Hv Hin. apply scanKeys_sound in Hin as [Hin | (it & _ & Hpos)]; [done|].
  by destruct Hpos as (_ & _ & Hne & _).
Qed.

(** The loop ends at the first key without the prefix: what follows it in
    the cursor has no influence, and the counter does not pass it. *)
Lemma scanKeys_break l1 : forall it l2 vals s i,
  String.prefix prefix (itemKey it) = false ->
  scanKeys prefix (l1 ++ it :: l2) vals s i = scanKeys prefix l1 vals s i.
Proof.
  induction l1 as [|x l1 IH]; intros it l2 vals s i Hp.
  - simpl app. by rewrite scanKeys_cons_break.
  - simpl app. destruct (String.prefix prefix (itemKey x)) eqn:Hx.
    + rewrite !scanKeys_cons_prefix by done. cbv zeta.
      repeat case_match; by apply IH.
    + by rewrite !scanKeys_cons_break.
Qed.

Lemma scanKeys_counter iter : forall vals s i,
  (i <= (scanKeys prefix iter vals s i).2 <= i + length iter)%nat.
Proof.
  induction iter as [|it rest IH]; intros vals s i; simpl; [lia|].
  repeat case_match; simpl; try lia;
    match goal with |- context [scanKeys prefix rest ?v ?t (S i)] =>
      specialize (IH v t (S i)); lia end.
Qed.

End KeyLoop.

(** ** The segment phase *)

Section SegmentPhase.
Context `{codec : KeyCodec}.
Variables (prefix : string) (start end_ : Z).

Lemma visitFile_polls f st : polls (visitFile prefix start end_ f st) = polls st.
Proof. unfold visitFile. repeat case_match; done. Qed.

Lemma visitFile_canceled f st : canceled (visitFile prefix start end_ f st) = canceled st.
Proof. unfold visitFile. repeat case_match; done. Qed.

Lemma visitFile_mono f st : tsmValues st ⊆ tsmValues (visitFile prefix start end_ f st).
Proof.
  unfold visitFile. destruct (_ && _); [|done].
  destruct (scanKeys _ _ _ _ _) as [[vals istats] i] eqn:Hs. simpl.
  pose proof (scanKeys_mono prefix (TimeRangeIterator f prefix start end_)
                (tsmValues st) zeroStats 0) as Hm.
  by rewrite Hs in Hm.
Qed.

Lemma visitFile_sound f st n :
  n ∈ tsmValues (visitFile prefix start end_ f st) ->
  n ∈ tsmValues st
  \/ (overlaps prefix start end_ f = true
      /\ exists it, it ∈ TimeRangeIterator f prefix start end_ /\ positiveItem prefix it n).
Proof.
  unfold visitFile, overlaps. destruct (_ && _); [|by left].
  destruct (scanKeys _ _ _ _ _) as [[vals istats] i] eqn:Hs. simpl. intros Hn.
  pose proof (scanKeys_sound prefix (TimeRangeIterator f prefix start end_)
                (tsmValues st) zeroStats 0 n) as Hsound.
  rewrite Hs in Hsound. destruct (Hsound Hn) as [?|?]; [by left|by right].
Qed.

Lemma visitFile_complete f st l1 it l2 n :
  overlaps prefix start end_ f = true ->
  TimeRangeIterator f prefix start end_ = l1 ++ it :: l2 ->
  Forall (fun x => String.prefix prefix (itemKey x) = true) l1 ->
  positiveItem prefix it n ->
  n ∈ tsmValues (visitFile prefix start end_ f st).
Proof.
  unfold visitFile, overlaps. intros -> Hiter Hall Hpos.
  destruct (scanKeys _ _ _ _ _) as [[vals istats] i] eqn:Hs. simpl.
  pose proof (scanKeys_complete prefix l1 it l2 (tsmValues st) zeroStats 0 n Hall Hpos) as Hc.
  by rewrite <- Hiter, Hs in Hc.
Qed.

Lemma processFiles_snoc files f st :
  processFiles prefix start end_ (files ++ [f]) st =
  visitFile prefix start end_ f (tick (processFiles prefix start end_ files st)).
Proof. unfold processFiles. by rewrite fold_left_app. Qed.

Lemma processFiles_polls files : forall st,
  polls (processFiles prefix start end_ files st) = (polls st + length files)%nat.
Proof.
  induction files as [|f files IH]; intros st; simpl; [lia|].
  unfold processFiles in *. simpl. rewrite IH, visitFile_polls. simpl. lia.
Qed.

Lemma processFiles_canceled files : forall st,
  canceled (processFiles prefix start end_ files st) = canceled st.
Proof.
  induction files as [|f files IH]; intros st; [done|].
  unfold processFiles in *. simpl. by rewrite IH, visitFile_canceled.
Qed.

Lemma processFiles_mono files : forall st,
  tsmValues st ⊆ tsmValues (processFiles prefix start end_ files st).
Proof.
  induction files as [|f files IH]; intros st; [done|].
  unfold processFiles in *. simpl. etrans; [|apply IH].
  apply (visitFile_mono f (tick st)).
Qed.

Lemma processFiles_sound files : forall st n,
  n ∈ tsmValues (processFiles prefix start end_ files st) ->
  n ∈ tsmValues st \/ segmentSignal prefix start end_ files n.
Proof.
  induction files as [|f files IH]; intros st n; [by left|].
  unfold processFiles in *. simpl. intros Hn.
  apply IH in Hn as [Hn | (f' & it & Hin & Hov & Hit & Hpos)].
  - apply visitFile_sound in Hn as [Hn | (Hov & it & Hit & Hpos)]; [by left|].
    right. exists f, it. split_and!; try done. by left.
  - right. exists f', it. split_and!; try done. by right.
Qed.

Lemma processFiles_complete files : forall st n,
  inSegment prefix start end_ files n ->
  n ∈ tsmValues (processFiles prefix start end_ files st).
Proof.
  induction files as [|f files IH]; intros st n (f' & l1 & it & l2 & Hin & Hov & Hiter & Hall & Hpos).
  - by apply elem_of_nil in Hin.
  - unfold processFiles in *. simpl.
    apply elem_of_cons in Hin as [-> | Hin].
    + eapply processFiles_mono, visitFile_complete; eauto.
    + apply IH. by exists f', l1, it, l2.
Qed.

(** [ForEachFile] under a context that stays live at every poll. *)
Lemma ForEachFile_live ctx files : forall st,
  (forall k, (k < length files)%nat -> Done ctx (polls st + k) = false) ->
  ForEachFile files (fileCallback ctx prefix start end_) st =
  processFiles prefix start end_ files st.
Proof.
  induction files as [|f files IH]; intros st Hlive; [done|].
  assert (H0 : Done ctx (polls st) = false).
  { rewrite <- (Nat.add_0_r (polls st)). apply Hlive. simpl. lia. }
  simpl. unfold fileCallback at 1. rewrite H0.
  unfold processFiles in *. simpl. apply IH.
  intros k Hk. rewrite visitFile_polls. simpl.
  replace (S (polls st + k))%nat with (polls st + S k)%nat by lia.
  apply Hlive. simpl. lia.
Qed.

(** [ForEachFile] under a context that the poll of index [k] finds
    done: the first [k] files are scanned, the others are not visited. *)
Lemma ForEachFile_fired ctx files : forall st k,
  (k < length files)%nat ->
  (forall j, (j < k)%nat -> Done ctx (polls st + j) = false) ->
  Done ctx (polls st + k) = true ->
  ForEachFile files (fileCallback ctx prefix start end_) st =
  markCanceled (processFiles prefix start end_ (take k files) st).
Proof.
  induction files as [|f files IH]; intros st k Hk Hlive Hdone; [simpl in Hk; lia|].
  simpl. unfold fileCallback at 1. destruct k as [|k].
  - rewrite Nat.add_0_r in Hdone. by rewrite Hdone.
  - assert (H0 : Done ctx (polls st) = false).
    { rewrite <- (Nat.add_0_r (polls st)). apply Hlive. lia. }
    rewrite H0. simpl take. unfold processFiles in *. simpl. apply IH.
    + simpl in Hk. lia.
    + intros j Hj. rewrite visitFile_polls. simpl.
      replace (S (polls st + j))%nat with (polls st + S j)%nat by lia.
      apply Hlive. lia.
    + rewrite visitFile_polls. simpl.
      by replace (S (polls st + k))%nat with (polls st + S k)%nat by lia.
Qed.

End SegmentPhase.

(** ** The cache phase *)

Section CachePhase.
Context `{codec : KeyCodec}.
Variables (prefix : string) (start end_ : Z).

Local Abbreviation visitor := (cacheVisitor prefix start end_).

(** The visitor, case by case. *)
Lemma cacheVisitor_skip sfkey en st :
  String.prefix prefix sfkey = false \/ measurementOf sfkey = ""
  \/ measurementOf sfkey ∈ tsmValues st ->
  visitor sfkey en st = (st, None).
Proof.
  unfold cacheVisitor. intros Hskip.
  destruct (String.prefix prefix sfkey); simpl; [|done].
  destruct (String.length _ =? 0)%nat eqn:Hlen; [done|].
  case_bool_decide; [done|].
  apply length_zero_false in Hlen. destruct Hskip as [?|[?|?]]; done.
Qed.

Lemma cacheVisitor_charge sfkey en st :
  String.prefix prefix sfkey = true ->
  measurementOf sfkey <> "" ->
  measurementOf sfkey ∉ tsmValues st ->
  visitor sfkey en st =
    ({| tsmValues := if values_Contains en start end_
                     then {[measurementOf sfkey]} ∪ tsmValues st else tsmValues st;
        stats := chargeEntry en (stats st);
        canceled := canceled st; polls := polls st |}, None).
Proof.
  unfold cacheVisitor. intros -> Hne%length_zero_false Hnotin. simpl.
  rewrite Hne. by rewrite bool_decide_eq_false_2.
Qed.

Lemma cacheVisitor_cases sfkey en st :
  visitor sfkey en st = (st, None)
  \/ (String.prefix prefix sfkey = true /\ measurementOf sfkey <> ""
      /\ measurementOf sfkey ∉ tsmValues st).
Proof.
  destruct (String.prefix prefix sfkey) eqn:Hp;
    [|left; apply cacheVisitor_skip; by left].
  destruct (decide (measurementOf sfkey = "")) as [He|Hne];
    [left; apply cacheVisitor_skip; by (right; left)|].
  destruct (decide (measurementOf sfkey ∈ tsmValues st)) as [Hin|Hnotin];
    [left; apply cacheVisitor_skip; by (right; right)|].
  by right.
Qed.

(** The visitor never returns an error. *)
Lemma cacheVisitor_no_error sfkey en st : (visitor sfkey en st).2 = None.
Proof.
  destruct (cacheVisitor_cases sfkey en st) as [-> | (Hp & Hne & Hnotin)]; [done|].
  by rewrite cacheVisitor_charge.
Qed.

Lemma cacheVisitor_polls sfkey en st :
  polls (visitor sfkey en st).1 = polls st /\ canceled (visitor sfkey en st).1 = canceled st.
Proof.
  destruct (cacheVisitor_cases sfkey en st) as [-> | (Hp & Hne & Hnotin)]; [done|].
  by rewrite cacheVisitor_charge.
Qed.

Lemma cacheVisitor_mono sfkey en st : tsmValues st ⊆ tsmValues (visitor sfkey en st).1.
Proof.
  destruct (cacheVisitor_cases sfkey en st) as [-> | (Hp & Hne & Hnotin)]; [done|].
  rewrite cacheVisitor_charge by done. simpl. case_match; set_solver.
Qed.

Lemma cacheVisitor_sound sfkey en st n :
  n ∈ tsmValues (visitor sfkey en st).1 ->
  n ∈ tsmValues st \/ positiveEntry prefix start end_ sfkey en n.
Proof.
  destruct (cacheVisitor_cases sfkey en st) as [-> | (Hp & Hne & Hnotin)]; [by left|].
  rewrite cacheVisitor_charge by done. simpl.
  destruct (values_Contains en start end_) eqn:Hc; [|by left].
  intros [->%elem_of_singleton | Hn]%elem_of_union; [by right|by left].
Qed.

Lemma cacheVisitor_complete sfkey en st n :
  positiveEntry prefix start end_ sfkey en n ->
  n ∈ tsmValues (visitor sfkey en st).1.
Proof.
  intros (Hp & Hm & Hne & Hc). subst n.
  destruct (decide (measurementOf sfkey ∈ tsmValues st)) as [Hin|Hnotin].
  - by apply cacheVisitor_mono.
  - rewrite cacheVisitor_charge by done. simpl. rewrite Hc. set_solver.
Qed.

(** A scan whose visitor never fails applies it to every entry. *)
Lemma ApplyEntryFn_total visit entries : forall st,
  (forall sfkey en st', (visit sfkey en st').2 = None) ->
  ApplyEntryFn entries visit st = (visitEntries visit entries st, None).
Proof.
  induction entries as [|[sfkey en] entries IH]; intros st Hok; [done|].
  simpl. specialize (Hok sfkey en st) as Hv.
  destruct (visit sfkey en st) as [st' err] eqn:Heq. simpl in Hv. subst err.
  rewrite IH by done. unfold visitEntries. simpl. by rewrite ?Heq.
Qed.

Lemma ApplyEntryFn_cacheVisitor entries st :
  ApplyEntryFn entries visitor st = (visitEntries visitor entries st, None).
Proof. apply ApplyEntryFn_total. intros. apply cacheVisitor_no_error. Qed.

Lemma visitEntries_snoc visit entries sfkey en st :
  visitEntries visit (entries ++ [(sfkey, en)]) st =
  (visit sfkey en (visitEntries visit entries st)).1.
Proof. unfold visitEntries. by rewrite fold_left_app. Qed.

Lemma visitEntries_app visit l1 l2 st :
  visitEntries visit (l1 ++ l2) st = visitEntries visit l2 (visitEntries visit l1 st).
Proof. unfold visitEntries. by rewrite fold_left_app. Qed.

Lemma visitEntries_polls entries : forall st,
  polls (visitEntries visitor entries st) = polls st
  /\ canceled (visitEntries visitor entries st) = canceled st.
Proof.
  induction entries as [|[sfkey en] entries IH]; intros st; [done|].
  unfold visitEntries in *. simpl.
  destruct (IH (visitor sfkey en st).1) as [-> ->]. apply cacheVisitor_polls.
Qed.

Lemma visitEntries_mono entries : forall st,
  tsmValues st ⊆ tsmValues (visitEntries visitor entries st).
Proof.
  induction entries as [|[sfkey en] entries IH]; intros st; [done|].
  unfold visitEntries in *. simpl. etrans; [|apply IH]. apply cacheVisitor_mono.
Qed.

Lemma visitEntries_sound entries : forall st n,
  n ∈ tsmValues (visitEntries visitor entries st) ->
  n ∈ tsmValues st \/ cacheSignal prefix start end_ entries n.
Proof.
  induction entries as [|[sfkey en] entries IH]; intros st n; [by left|].
  unfold visitEntries in *. simpl. intros Hn.
  apply IH in Hn as [Hn | (k & en' & Hin & Hpos)].
  - apply cacheVisitor_sound in Hn as [Hn | Hpos]; [by left|].
    right. exists sfkey, en. split; [by left|done].
  - right. exists k, en'. split; [by right|done].
Qed.

Lemma visitEntries_complete entries : forall st n,
  cacheSignal prefix start end_ entries n ->
  n ∈ tsmValues (visitEntries visitor entries st).
Proof.
  induction entries as [|[sfkey en] entries IH]; intros st n (k & en' & Hin & Hpos).
  - by apply elem_of_nil in Hin.
  - unfold visitEntries in *. simpl.
    apply elem_of_cons in Hin as [[= -> ->] | Hin].
    + by apply (visitEntries_mono entries), cacheVisitor_complete.
    + apply IH. by exists k, en'.
Qed.

End CachePhase.

(** ** The whole call *)

Section Run.
Context `{codec : KeyCodec}.
Variables (e : Engine) (ctx : Context) (orgID bucketID start end_ : Z).

Local Abbreviation prefix := (namespacePrefix orgID bucketID).

Lemma Done_cancelAt t :
  Done ctx t = true <-> exists d, cancelAt ctx = Some d /\ (d <= t)%nat.
Proof.
  unfold Done. destruct (cancelAt ctx) as [d|]; split.
  - intros Hd%Nat.leb_le. by exists d.
  - intros (d' & [= <-] & Hle). by apply Nat.leb_le.
  - done.
  - by intros (d' & ? & _).
Qed.

(** Every run is either live throughout the segment phase or canceled at
    one of its polls. *)
Lemma uncanceled_or_fired :
  uncanceled e ctx \/ exists d, firesInSegmentPhase e ctx d.
Proof.
  unfold uncanceled, firesInSegmentPhase, Done.
  destruct (cancelAt ctx) as [d|]; [|by left].
  destruct (decide (d < length (FileStore e))%nat) as [Hlt|Hge].
  - right. by exists d.
  - left. intros k Hk. apply Nat.leb_gt. lia.
Qed.

Lemma uncanceled_not_fired d : uncanceled e ctx -> ~ firesInSegmentPhase e ctx d.
Proof.
  intros Hlive [Hd Hlt]. specialize (Hlive d Hlt).
  unfold Done in Hlive. rewrite Hd in Hlive. apply Nat.leb_gt in Hlive. lia.
Qed.

Lemma scanFiles_uncanceled :
  uncanceled e ctx ->
  scanFiles e ctx prefix start end_ = segmentState e orgID bucketID start end_.
Proof. intros Hlive. apply ForEachFile_live. exact Hlive. Qed.

Lemma scanFiles_fired d :
  firesInSegmentPhase e ctx d ->
  scanFiles e ctx prefix start end_ =
  markCanceled (processFiles prefix start end_ (take d (FileStore e)) initState).
Proof.
  intros [Hd Hlt]. apply ForEachFile_fired; [done| |].
  - intros j Hj. unfold Done. rewrite Hd. apply Nat.leb_gt. simpl. lia.
  - unfold Done. rewrite Hd. by apply Nat.leb_le.
Qed.

Lemma segmentState_live :
  canceled (segmentState e orgID bucketID start end_) = false
  /\ polls (segmentState e orgID bucketID start end_) = length (FileStore e).
Proof.
  unfold segmentState. by rewrite processFiles_canceled, processFiles_polls.
Qed.

(** The call, when the run is not canceled, for any visitor. *)
Lemma MeasurementNamesWith_uncanceled (visit : CacheVisitor) :
  uncanceled e ctx ->
  MeasurementNamesWith visit e ctx orgID bucketID start end_ =
  let st' := (ApplyEntryFn (Cache e) (visit prefix start end_)
                (segmentState e orgID bucketID start end_)).1 in
  (Some (NewStringSliceIteratorWithStats
           (sort_Strings (elements (tsmValues st'))) (stats st')), None).
Proof.
  intros Hlive. unfold MeasurementNamesWith. fold prefix.
  rewrite scanFiles_uncanceled by done.
  destruct segmentState_live as [-> _].
  by destruct (ApplyEntryFn _ _ _).
Qed.

Lemma MeasurementNames_uncanceled :
  uncanceled e ctx ->
  MeasurementNames e ctx orgID bucketID start end_ =
  (Some (NewStringSliceIteratorWithStats
           (sort_Strings (elements (tsmValues (finalState e orgID bucketID start end_))))
           (stats (finalState e orgID bucketID start end_))), None).
Proof.
  intros Hlive. unfold MeasurementNames.
  rewrite MeasurementNamesWith_uncanceled by done.
  by rewrite ApplyEntryFn_cacheVisitor.
Qed.

(** The call, when a poll of the segment phase finds the context done, for
    any visitor. *)
Lemma MeasurementNamesWith_fired (visit : CacheVisitor) d :
  firesInSegmentPhase e ctx d ->
  MeasurementNamesWith visit e ctx orgID bucketID start end_ =
  (Some (NewStringSliceIteratorWithStats []
           (stats (processFiles prefix start end_ (take d (FileStore e)) initState))),
   Some (cause ctx)).
Proof.
  intros Hfire. unfold MeasurementNamesWith. fold prefix.
  rewrite (scanFiles_fired d) by done. simpl.
  destruct Hfire as [Hd Hlt].
  rewrite processFiles_polls, length_take. simpl.
  unfold Err, Done. rewrite Hd.
  by rewrite (proj2 (Nat.leb_le _ _)) by lia.
Qed.

Lemma segmentState_no_empty : "" ∉ tsmValues (segmentState e orgID bucketID start end_).
Proof.
  intros Hin. apply processFiles_sound in Hin as [Hin | (f & it & _ & _ & _ & Hpos)].
  - set_solver.
  - by destruct Hpos as (_ & _ & Hne & _).
Qed.

Lemma finalState_no_empty : "" ∉ tsmValues (finalState e orgID bucketID start end_).
Proof.
  intros Hin. apply visitEntries_sound in Hin as [Hin | (k & en & _ & Hpos)].
  - by apply segmentState_no_empty.
  - by destruct Hpos as (_ & _ & Hne & _).
Qed.

(** A context that fires when the segment phase has no poll left to make
    (after the last file was reached, or with an empty file store) is not
    observed: the call scans the cache and returns a nil error. *)
Remark late_cancellation_unobserved d :
  cancelAt ctx = Some d -> (length (FileStore e) <= d)%nat ->
  (MeasurementNames e ctx orgID bucketID start end_).2 = None.
Proof.
  intros Hd Hle. rewrite MeasurementNames_uncanceled; [done|].
  intros k Hk. unfold Done. rewrite Hd. apply Nat.leb_gt. lia.
Qed.

End Run.

(** ** Keys that are skipped *)

Section Skips.
Context `{codec : KeyCodec}.
Variables (prefix : string) (start end_ : Z).

(** The counter has no influence on what the loop finds. *)
Lemma scanKeys_counter_irrel iter : forall vals s i j,
  (scanKeys prefix iter vals s i).1 = (scanKeys prefix iter vals s j).1.
Proof.
  induction iter as [|it rest IH]; intros vals s i j; [done|].
  destruct (String.prefix prefix (itemKey it)) eqn:Hp.
  - rewrite !scanKeys_cons_prefix by done. cbv zeta.
    repeat case_match; apply IH.
  - by rewrite !scanKeys_cons_break.
Qed.

Lemma scanKeys_counter_exact iter : forall vals s i,
  Forall (fun x => String.prefix prefix (itemKey x) = true) iter ->
  (scanKeys prefix iter vals s i).2 = (i + length iter)%nat.
Proof.
  induction iter as [|it rest IH]; intros vals s i Hall; simpl; [lia|].
  apply Forall_cons in Hall as [Hp Hall]. rewrite Hp. simpl.
  repeat case_match; rewrite IH by done; lia.
Qed.

(** A key with the prefix and without measurement changes neither the
    measurements found nor the statistics of the cursor. *)
Lemma scanKeys_skip l1 : forall it l2 vals s i,
  String.prefix prefix (itemKey it) = true ->
  measurementOf (itemKey it) = "" ->
  (scanKeys prefix (l1 ++ it :: l2) vals s i).1 = (scanKeys prefix (l1 ++ l2) vals s i).1.
Proof.
  induction l1 as [|x l1 IH]; intros it l2 vals s i Hp Hm.
  - simpl app. rewrite scanKeys_cons_prefix by done. cbv zeta.
    rewrite Hm. simpl. apply scanKeys_counter_irrel.
  - simpl app. destruct (String.prefix prefix (itemKey x)) eqn:Hx.
    + rewrite !scanKeys_cons_prefix by done. cbv zeta.
      repeat case_match; by apply IH.
    + by rewrite !scanKeys_cons_break.
Qed.

(** A cache entry the visitor skips changes nothing. *)
Lemma visitEntries_skip l1 sfkey en l2 st :
  String.prefix prefix sfkey = false \/ measurementOf sfkey = "" ->
  visitEntries (cacheVisitor prefix start end_) (l1 ++ (sfkey, en) :: l2) st =
  visitEntries (cacheVisitor prefix start end_) (l1 ++ l2) st.
Proof.
  intros Hskip. rewrite !visitEntries_app.
  change (visitEntries ?v ((sfkey, en) :: l2) ?x)
    with (visitEntries v l2 (v sfkey en x).1).
  rewrite cacheVisitor_skip; [done|]. destruct Hskip; auto.
Qed.

End Skips.

(** ** The contract of [MeasurementNames] *)

Section Claims.
Context `{codec : KeyCodec}.


(** C5. When a poll of the segment phase finds the context done, the
    iterator that is returned has no measurement name at all, whatever
    the files scanned before that poll have put into [tsmValues]; the
    statistics of these files are what the iterator keeps. *)
Theorem canceled_run_returns_no_names
    (e : Engine) (ctx : Context) (orgID bucketID start end_ : Z) (d : nat) :
  firesInSegmentPhase e ctx d ->
  let scanned := processFiles (namespacePrefix orgID bucketID) start end_
                   (take d (FileStore e)) initState in
  exists it,
    (MeasurementNames e ctx orgID bucketID start end_).1 = Some it
    /\ iterValues it = []
    /\ (forall n, n ∈ tsmValues scanned -> n ∉ iterValues it)
    /\ iterStats it = stats scanned.
Proof.
  intros Hfire scanned. unfold MeasurementNames.
  rewrite (MeasurementNamesWith_fired _ _ _ _ _ _ _ d) by done.
  eexists. split; [reflexivity|]. simpl. split_and!; try done.
  intros n _. apply not_elem_of_nil.
Qed.

(** C4. In a run that is not canceled the names come out strictly
    ascending in the byte-wise order, without duplicates, and a
    measurement that a segment or the cache (or both) has data for
    occurs exactly once. *)
Theorem MeasurementNames_sorted_unique
    (e : Engine) (ctx : Context) (orgID bucketID start end_ : Z) :
  uncanceled e ctx ->
  exists it,
    MeasurementNames e ctx orgID bucketID start end_ = (Some it, None)
    /\ StronglySorted string_lt (iterValues it)
    /\ NoDup (iterValues it)
    /\ (forall n,
          inSegment (namespacePrefix orgID bucketID) start end_ (FileStore e) n ->
          cacheSignal (namespacePrefix orgID bucketID) start end_ (Cache e) n ->
          count_occ string_dec (iterValues it) n = 1%nat)
    /\ (forall n,
          inSegment (namespacePrefix orgID bucketID) start end_ (FileStore e) n
          \/ cacheSignal (namespacePrefix orgID bucketID) start end_ (Cache e) n ->
          count_occ string_dec (iterValues it) n = 1%nat).
Proof.
  intros Hlive. rewrite MeasurementNames_uncanceled by done.
  eexists. split; [reflexivity|]. simpl.
  destruct (sort_Strings_elements (tsmValues (finalState e orgID bucketID start end_)))
    as (Hsorted & Hnd & Hmem).
  assert (Hone : forall n,
    inSegment (namespacePrefix orgID bucketID) start end_ (FileStore e) n
    \/ cacheSignal (namespacePrefix orgID bucketID) start end_ (Cache e) n ->
    count_occ string_dec
      (sort_Strings (elements (tsmValues (finalState e orgID bucketID start end_)))) n
    = 1%nat).
  { intros n Hn. apply NoDup_count_occ'; [by apply NoDup_ListNoDup|].
    apply list_elem_of_In, Hmem. destruct Hn as [Hseg | Hcache].
    - apply visitEntries_mono. by apply processFiles_complete.
    - by apply visitEntries_complete. }
  split_and!; try done. intros n Hseg _. apply Hone. by left.
Qed.

(** C6. A measurement is recorded only under a positive signal.  In the
    key loop a measurement that was not yet found is recorded only for a
    key with the prefix whose cursor position reports data in the time
    range; in the cache visitor only for an entry with the prefix whose
    [Contains] test succeeds.  Hence every name a run returns was found
    by the segment phase under a positive signal of a scanned file, or
    else by the cache phase under a positive signal of a cache entry. *)
Theorem recorded_only_under_positive_signal
    (e : Engine) (ctx : Context) (orgID bucketID start end_ : Z) :
  let prefix := namespacePrefix orgID bucketID in
  (forall iter vals s i n,
      n ∈ (scanKeys prefix iter vals s i).1.1 ->
      n ∈ vals \/ exists it, it ∈ iter /\ positiveItem prefix it n)
  /\ (forall it vals s i,
      itemHasData it = false -> (scanKeys prefix [it] vals s i).1.1 = vals)
  /\ (forall sfkey en st n,
      n ∈ tsmValues (cacheVisitor prefix start end_ sfkey en st).1 ->
      n ∈ tsmValues st \/ positiveEntry prefix start end_ sfkey en n)
  /\ (forall sfkey en st,
      values_Contains en start end_ = false ->
      tsmValues (cacheVisitor prefix start end_ sfkey en st).1 = tsmValues st)
  /\ (forall it n,
      (MeasurementNames e ctx orgID bucketID start end_).1 = Some it ->
      n ∈ iterValues it ->
      ((n ∈ tsmValues (segmentState e orgID bucketID start end_)
        /\ segmentSignal prefix start end_ (FileStore e) n)
       \/ ((n ∉ tsmValues (segmentState e orgID bucketID start end_))
           /\ cacheSignal prefix start end_ (Cache e) n))).
Proof.
  intros prefix. split_and!.
  - intros iter vals s i n. apply scanKeys_sound.
  - intros it vals s i Hd. simpl. rewrite Hd. by repeat case_match.
  - intros sfkey en st n. apply cacheVisitor_sound.
  - intros sfkey en st Hc.
    destruct (cacheVisitor_cases prefix start end_ sfkey en st)
      as [-> | (Hp & Hne & Hnotin)]; [done|].
    rewrite cacheVisitor_charge by done. simpl. by rewrite Hc.
  - intros it n Hres Hn.
    destruct (uncanceled_or_fired e ctx) as [Hlive | [d Hfire]].
    + rewrite MeasurementNames_uncanceled in Hres by done.
      simpl in Hres. injection Hres as <-. simpl in Hn.
      apply sort_Strings_elements in Hn.
      destruct (decide (n ∈ tsmValues (segmentState e orgID bucketID start end_)))
        as [Hseg | Hnseg].
      * left. split; [done|].
        apply processFiles_sound in Hseg as [Hseg | Hsig]; [set_solver|done].
      * right. split; [done|].
        by apply visitEntries_sound in Hn as [Hn | Hsig].
    + unfold MeasurementNames in Hres.
      rewrite (MeasurementNamesWith_fired _ _ _ _ _ _ _ d) in Hres by done.
      simpl in Hres. injection Hres as <-. by apply elem_of_nil in Hn.
Qed.

(** C2, amended. In the cache phase an entry is charged when its key has
    the namespace prefix, its measurement is not empty and the
    measurement has not been found when the entry is visited: its value
    count is added to the scanned values and eight times its value count
    to the scanned bytes, whether or not the entry matches the time
    range.  An entry whose measurement was already found, by the segment
    phase or by an earlier cache entry, is not charged and changes
    nothing. *)
Theorem cache_entry_charged_unless_found
    (e : Engine) (orgID bucketID start end_ : Z)
    (l1 : list (string * entry)) (sfkey : string) (en : entry)
    (l2 : list (string * entry)) :
  Cache e = l1 ++ (sfkey, en) :: l2 ->
  String.prefix (namespacePrefix orgID bucketID) sfkey = true ->
  let visitor := cacheVisitor (namespacePrefix orgID bucketID) start end_ in
  let before := visitEntries visitor l1 (segmentState e orgID bucketID start end_) in
  let after := (visitor sfkey en before).1 in
  finalState e orgID bucketID start end_ = visitEntries visitor l2 after
  /\ (measurementOf sfkey <> "" -> measurementOf sfkey ∉ tsmValues before ->
        ScannedValues (stats after)
        = int_add (ScannedValues (stats before)) (values_Len en)
        /\ ScannedBytes (stats after)
           = int_add (ScannedBytes (stats before)) (int_mul (values_Len en) 8))
  /\ (measurementOf sfkey ∈ tsmValues (segmentState e orgID bucketID start end_) ->
        after = before)
  /\ (measurementOf sfkey ∈ tsmValues before -> after = before).
Proof.
  intros Hcache Hp visitor before after. split_and!.
  - unfold finalState. rewrite Hcache. by rewrite visitEntries_app.
  - intros Hne Hnotin. unfold after, visitor.
    by rewrite cacheVisitor_charge.
  - intros Hin. unfold after, visitor. rewrite cacheVisitor_skip; [done|].
    right; right. by apply visitEntries_mono.
  - intros Hin. unfold after, visitor. rewrite cacheVisitor_skip; [done|]. auto.
Qed.


(** The body of [MeasurementNames] does not look at what [ApplyEntryFn]
    returns: with any visitor in the place of the closure, a run that is
    not canceled returns a nil error. *)
Remark scan_result_is_not_inspected
    (visit : CacheVisitor) (e : Engine) (ctx : Context)
    (orgID bucketID start end_ : Z) :
  uncanceled e ctx ->
  (MeasurementNamesWith visit e ctx orgID bucketID start end_).2 = None.
Proof. intros Hlive. by rewrite MeasurementNamesWith_uncanceled. Qed.

(** C7. The context is polled once by each invocation of the callback of
    [ForEachFile], before the file is accessed, and the key loop makes no
    poll.  A run that is not canceled has made one poll per file; a run
    canceled at the poll of index [d] has scanned [d] files and made
    [d + 1] polls, and [MeasurementNames] returns the statistics of these
    files with the error of the context, the cache left aside.  The cache
    phase makes no poll: once the segment phase has ended without
    cancellation the visitor is applied to every cache entry in turn, the
    scan reports no error, [MeasurementNames] returns the sorted names and
    the statistics of the state the scan leaves, with a nil error, and the
    result is the same for every context that was live during the segment
    phase, whatever its state afterwards. *)
Theorem cancellation_polled_once_per_segment
    (e : Engine) (ctx : Context) (orgID bucketID start end_ : Z) :
  let prefix := namespacePrefix orgID bucketID in
  (forall f st,
      polls (fileCallback ctx prefix start end_ f st).2 = S (polls st)
      /\ polls (visitFile prefix start end_ f st) = polls st
      /\ (Done ctx (polls st) = true ->
            fileCallback ctx prefix start end_ f st = (false, markCanceled st))
      /\ (Done ctx (polls st) = false ->
            fileCallback ctx prefix start end_ f st =
            (true, visitFile prefix start end_ f (tick st))))
  /\ (uncanceled e ctx ->
        polls (scanFiles e ctx prefix start end_) = length (FileStore e)
        /\ canceled (scanFiles e ctx prefix start end_) = false)
  /\ (forall d, firesInSegmentPhase e ctx d ->
        scanFiles e ctx prefix start end_ =
        markCanceled (processFiles prefix start end_ (take d (FileStore e)) initState)
        /\ polls (scanFiles e ctx prefix start end_) = S d
        /\ MeasurementNames e ctx orgID bucketID start end_
           = (Some (NewStringSliceIteratorWithStats []
                      (stats (processFiles prefix start end_
                                (take d (FileStore e)) initState))),
              Some (cause ctx)))
  /\ (uncanceled e ctx ->
        ApplyEntryFn (Cache e) (cacheVisitor prefix start end_)
          (scanFiles e ctx prefix start end_)
        = (finalState e orgID bucketID start end_, None)
        /\ polls (finalState e orgID bucketID start end_) = length (FileStore e)
        /\ MeasurementNames e ctx orgID bucketID start end_
           = (Some (NewStringSliceIteratorWithStats
                      (sort_Strings
                         (elements (tsmValues (finalState e orgID bucketID start end_))))
                      (stats (finalState e orgID bucketID start end_))), None)
        /\ (forall l1 sfkey en l2,
              Cache e = l1 ++ (sfkey, en) :: l2 ->
              finalState e orgID bucketID start end_
              = visitEntries (cacheVisitor prefix start end_) l2
                  (cacheVisitor prefix start end_ sfkey en
                     (visitEntries (cacheVisitor prefix start end_) l1
                        (processFiles prefix start end_ (FileStore e) initState))).1)
        /\ forall ctx', uncanceled e ctx' ->
             MeasurementNames e ctx' orgID bucketID start end_ =
             MeasurementNames e ctx orgID bucketID start end_).
Proof.
  intros prefix. split_and!.
  - intros f st. unfold fileCallback.
    destruct (Done ctx (polls st)); simpl; rewrite ?visitFile_polls; done.
  - intros Hlive. unfold prefix. rewrite scanFiles_uncanceled by done.
    destruct (segmentState_live e orgID bucketID start end_) as [-> ->]. done.
  - intros d Hfire. unfold prefix. rewrite (scanFiles_fired _ _ _ _ _ _ d) by done.
    split_and!; [done| |].
    + simpl. rewrite processFiles_polls, length_take.
      destruct Hfire as [_ Hlt]. simpl. lia.
    + unfold MeasurementNames. by rewrite (MeasurementNamesWith_fired _ _ _ _ _ _ _ d).
  - intros Hlive. unfold prefix. rewrite scanFiles_uncanceled by done.
    rewrite ApplyEntryFn_cacheVisitor. split_and!; [done| | | |].
    + unfold finalState.
      destruct (visitEntries_polls (namespacePrefix orgID bucketID) start end_
                  (Cache e) (segmentState e orgID bucketID start end_)) as [-> _].
      apply segmentState_live.
    + by apply MeasurementNames_uncanceled.
    + intros l1 sfkey en l2 Hcache. unfold finalState, segmentState.
      rewrite Hcache. by rewrite visitEntries_app.
    + intros ctx' Hlive'. by rewrite !MeasurementNames_uncanceled.
Qed.

(** C8. The key loop stops at the first key without the namespace prefix:
    the keys that follow it in the cursor have no influence on the
    measurements, on the statistics or on the counter of the loop, the
    counter does not go past it, and every measurement the loop records
    comes from a key before it. *)
Theorem key_loop_stops_at_first_foreign_key
    (prefix : string) (l1 : Cursor) (it : CursorItem) (l2 : Cursor)
    (vals : gset string) (s : CursorStats) (i : nat) :
  String.prefix prefix (itemKey it) = false ->
  scanKeys prefix (l1 ++ it :: l2) vals s i = scanKeys prefix l1 vals s i
  /\ ((scanKeys prefix (l1 ++ it :: l2) vals s i).2 <= i + length l1)%nat
  /\ (Forall (fun x => String.prefix prefix (itemKey x) = true) l1 ->
      (scanKeys prefix (l1 ++ it :: l2) vals s i).2 = (i + length l1)%nat)
  /\ (forall n, n ∈ (scanKeys prefix (l1 ++ it :: l2) vals s i).1.1 ->
        n ∈ vals \/ exists it', it' ∈ l1 /\ positiveItem prefix it' n).
Proof.
  intros Hp. rewrite scanKeys_break by done. split_and!.
  - done.
  - apply scanKeys_counter.
  - apply scanKeys_counter_exact.
  - intros n. apply scanKeys_sound.
Qed.

(** C9. A malformed key, one from which no measurement can be extracted,
    does not make the scan fail.  In a cursor such a key of the namespace
    is skipped: the measurements and statistics are those of the cursor
    without it.  In the cache the visitor returns no error and leaves the
    state as it is, so the call returns what it returns without the
    entry.  Whatever the input, the iterator is not nil, the empty string
    is not among the names, and the only error a call returns is the
    error of a context that fired during the segment phase. *)
Theorem malformed_keys_are_skipped
    (e : Engine) (ctx : Context) (orgID bucketID start end_ : Z) :
  let prefix := namespacePrefix orgID bucketID in
  (forall l1 it l2 vals s i,
      String.prefix prefix (itemKey it) = true ->
      measurementOf (itemKey it) = "" ->
      (scanKeys prefix (l1 ++ it :: l2) vals s i).1.1
      = (scanKeys prefix (l1 ++ l2) vals s i).1.1)
  /\ (forall sfkey en st,
      measurementOf sfkey = "" ->
      cacheVisitor prefix start end_ sfkey en st = (st, None))
  /\ (forall l1 sfkey en l2,
      measurementOf sfkey = "" ->
      Cache e = l1 ++ l2 ->
      MeasurementNames {| FileStore := FileStore e; Cache := l1 ++ (sfkey, en) :: l2 |}
        ctx orgID bucketID start end_
      = MeasurementNames e ctx orgID bucketID start end_)
  /\ (exists it,
      (MeasurementNames e ctx orgID bucketID start end_).1 = Some it
      /\ "" ∉ iterValues it)
  /\ (forall err,
      (MeasurementNames e ctx orgID bucketID start end_).2 = Some err ->
      err = cause ctx /\ exists d, firesInSegmentPhase e ctx d).
Proof.
  intros prefix. split_and!.
  - intros l1 it l2 vals s i Hp Hm. by rewrite (scanKeys_skip prefix l1 it l2).
  - intros sfkey en st Hm. apply cacheVisitor_skip. auto.
  - intros l1 sfkey en l2 Hm Hcache.
    set (e' := {| FileStore := FileStore e; Cache := l1 ++ (sfkey, en) :: l2 |}).
    destruct (uncanceled_or_fired e ctx) as [Hlive | [d Hfire]].
    + rewrite !MeasurementNames_uncanceled by done.
      assert (Hfin : finalState e' orgID bucketID start end_
                     = finalState e orgID bucketID start end_).
      { unfold finalState, segmentState. simpl. rewrite Hcache.
        apply visitEntries_skip. auto. }
      by rewrite Hfin.
    + unfold MeasurementNames.
      by rewrite !(MeasurementNamesWith_fired _ _ _ _ _ _ _ d).
  - destruct (uncanceled_or_fired e ctx) as [Hlive | [d Hfire]].
    + rewrite MeasurementNames_uncanceled by done.
      eexists. split; [reflexivity|]. simpl.
      rewrite (proj2 (proj2 (sort_Strings_elements _))).
      apply finalState_no_empty.
    + unfold MeasurementNames.
      rewrite (MeasurementNamesWith_fired _ _ _ _ _ _ _ d) by done.
      eexists. split; [reflexivity|]. apply not_elem_of_nil.
  - intros err. destruct (uncanceled_or_fired e ctx) as [Hlive | [d Hfire]].
    + by rewrite MeasurementNames_uncanceled.
    + unfold MeasurementNames.
      rewrite (MeasurementNamesWith_fired _ _ _ _ _ _ _ d) by done.
      simpl. intros [= <-]. eauto.
Qed.

(** C10. [MeasurementTagValues] and [MeasurementTagKeys] return a nil
    iterator together with a nil error for every input: a caller that
    only checks the error gets no iterator. *)
Theorem tag_operations_return_nil_nil
    (e : Engine) (ctx : Context) (orgID bucketID : Z)
    (measurement tagKey : string) (start end_ : Z) (predicate : option string) :
  MeasurementTagValues e ctx orgID bucketID measurement tagKey start end_ predicate
  = (None, None)
  /\ MeasurementTagKeys e ctx orgID bucketID measurement start end_ predicate
     = (None, None).
Proof. split; reflexivity. Qed.

End Claims.

(** ** The properties on the engine of the design document's scenario *)

Section Scenario.
Import Demo.
Local Existing Instance SpecCodec.codec.

(** Under the reference codec a key without separator has no measurement:
    it is a malformed key. *)
Lemma no_separator_no_measurement (sfkey : string) :
  (SpecCodec.splitUnescaped SpecCodec.separator sfkey).2 = None ->
  measurementOf sfkey = "".
Proof.
  unfold measurementOf. simpl. unfold SpecCodec.seriesAndField.
  destruct (SpecCodec.splitUnescaped SpecCodec.separator sfkey) as [series [field|]];
    simpl; intros Hsep; [discriminate|reflexivity].
Qed.

Lemma never_uncanceled : uncanceled engine never.
Proof. intros k _. reflexivity. Defined.

Lemma firesAt_1_fires : firesInSegmentPhase engine (firesAt 1) 1.
Proof. split; [reflexivity | simpl; lia]. Defined.


(** A context that fires after the two polls of the segment phase. *)
Lemma firesAt_2_uncanceled : uncanceled engine (firesAt 2).
Proof.
  intros k Hk. simpl in Hk.
  destruct k as [|[|k]]; [reflexivity | reflexivity | lia].
Defined.

Example scenario_names :
  MeasurementNames engine never org bucket 0 20 =
  (Some {| iterValues := ["cpu"; "disk"; "mem"];
           iterStats := {| ScannedValues := 9; ScannedBytes := 72 |} |}, None).
Proof. vm_compute. reflexivity. Qed.

Example scenario_canceled :
  MeasurementNames engine (firesAt 1) org bucket 0 20 =
  (Some {| iterValues := [];
           iterStats := {| ScannedValues := 6; ScannedBytes := 48 |} |},
   Some Canceled).
Proof. vm_compute. reflexivity. Qed.


Lemma canceled_run_returns_no_names_witness :
  firesInSegmentPhase engine (firesAt 1) 1
  /\ "cpu" ∈ tsmValues (processFiles (namespacePrefix org bucket) 0 20
                          (take 1 (FileStore engine)) initState)
  /\ exists it,
       (MeasurementNames engine (firesAt 1) org bucket 0 20).1 = Some it
       /\ iterValues it = []
       /\ (forall n, n ∈ tsmValues (processFiles (namespacePrefix org bucket) 0 20
                                      (take 1 (FileStore engine)) initState) ->
                     n ∉ iterValues it)
       /\ iterStats it = stats (processFiles (namespacePrefix org bucket) 0 20
                                  (take 1 (FileStore engine)) initState).
Proof.
  split; [exact firesAt_1_fires|]. split.
  - vm_compute. reflexivity.
  - exact (canceled_run_returns_no_names engine (firesAt 1) org bucket 0 20 1
             firesAt_1_fires).
Defined.

Lemma cpu_inSegment :
  inSegment (namespacePrefix org bucket) 0 20 (FileStore engine) "cpu".
Proof.
  exists segmentA, [], (item cpuKey true 4 32), [item memKey true 2 16].
  split_and!; [by left | reflexivity | reflexivity | constructor |].
  split_and!; [vm_compute; reflexivity | vm_compute; reflexivity | discriminate | reflexivity].
Defined.

Lemma cpu_cacheSignal :
  cacheSignal (namespacePrefix org bucket) 0 20 (Cache engine) "cpu".
Proof.
  exists cpuKey, (entryAt [15]). split; [by left|].
  split_and!; [vm_compute; reflexivity | vm_compute; reflexivity | discriminate | reflexivity].
Defined.

Lemma MeasurementNames_sorted_unique_witness :
  uncanceled engine never
  /\ inSegment (namespacePrefix org bucket) 0 20 (FileStore engine) "cpu"
  /\ cacheSignal (namespacePrefix org bucket) 0 20 (Cache engine) "cpu"
  /\ exists it,
       MeasurementNames engine never org bucket 0 20 = (Some it, None)
       /\ StronglySorted string_lt (iterValues it)
       /\ NoDup (iterValues it)
       /\ count_occ string_dec (iterValues it) "cpu" = 1%nat.
Proof.
  split; [exact never_uncanceled|]. split; [exact cpu_inSegment|].
  split; [exact cpu_cacheSignal|].
  destruct (MeasurementNames_sorted_unique engine never org bucket 0 20 never_uncanceled)
    as (it & Heq & Hsorted & Hnd & Hboth & _).
  exists it. split_and!; try done.
  exact (Hboth "cpu" cpu_inSegment cpu_cacheSignal).
Defined.

Lemma recorded_only_under_positive_signal_witness :
  (MeasurementNames engine never org bucket 0 20).1
  = Some {| iterValues := ["cpu"; "disk"; "mem"];
            iterStats := {| ScannedValues := 9; ScannedBytes := 72 |} |}
  /\ "disk" ∈ ["cpu"; "disk"; "mem"]
  /\ (("disk" ∈ tsmValues (segmentState engine org bucket 0 20)
       /\ segmentSignal (namespacePrefix org bucket) 0 20 (FileStore engine) "disk")
      \/ (("disk" ∉ tsmValues (segmentState engine org bucket 0 20))
          /\ cacheSignal (namespacePrefix org bucket) 0 20 (Cache engine) "disk")).
Proof.
  assert (Hres : (MeasurementNames engine never org bucket 0 20).1
                 = Some {| iterValues := ["cpu"; "disk"; "mem"];
                           iterStats := {| ScannedValues := 9; ScannedBytes := 72 |} |})
    by (vm_compute; reflexivity).
  assert (Hin : "disk" ∈ ["cpu"; "disk"; "mem"]) by (right; left).
  split; [exact Hres|]. split; [exact Hin|].
  exact (proj2 (proj2 (proj2 (proj2 (recorded_only_under_positive_signal
           engine never org bucket 0 20)))) _ "disk" Hres Hin).
Defined.

Lemma cancellation_polled_once_per_segment_witness :
  uncanceled engine never
  /\ firesInSegmentPhase engine (firesAt 1) 1
  /\ (polls (scanFiles engine never (namespacePrefix org bucket) 0 20)
      = length (FileStore engine)
      /\ canceled (scanFiles engine never (namespacePrefix org bucket) 0 20) = false)
  /\ (scanFiles engine (firesAt 1) (namespacePrefix org bucket) 0 20 =
      markCanceled (processFiles (namespacePrefix org bucket) 0 20
                      (take 1 (FileStore engine)) initState)
      /\ polls (scanFiles engine (firesAt 1) (namespacePrefix org bucket) 0 20) = 2%nat
      /\ MeasurementNames engine (firesAt 1) org bucket 0 20
         = (Some (NewStringSliceIteratorWithStats []
                    (stats (processFiles (namespacePrefix org bucket) 0 20
                              (take 1 (FileStore engine)) initState))),
            Some (cause (firesAt 1))))
  /\ MeasurementNames engine never org bucket 0 20
     = (Some (NewStringSliceIteratorWithStats
                (sort_Strings (elements (tsmValues (finalState engine org bucket 0 20))))
                (stats (finalState engine org bucket 0 20))), None)
  /\ uncanceled engine (firesAt 2)
  /\ MeasurementNames engine (firesAt 2) org bucket 0 20
     = MeasurementNames engine never org bucket 0 20.
Proof.
  destruct (cancellation_polled_once_per_segment engine never org bucket 0 20)
    as (_ & Hpolls & _ & Hcache).
  destruct (Hcache never_uncanceled) as (_ & _ & Hresult & _ & Hsame).
  split; [exact never_uncanceled|]. split; [exact firesAt_1_fires|].
  split; [exact (Hpolls never_uncanceled)|]. split.
  - exact (proj1 (proj2 (proj2 (cancellation_polled_once_per_segment
                                  engine (firesAt 1) org bucket 0 20)))
             1%nat firesAt_1_fires).
  - split; [exact Hresult|]. split; [exact firesAt_2_uncanceled|].
    exact (Hsame (firesAt 2) firesAt_2_uncanceled).
Defined.

Lemma key_loop_stops_at_first_foreign_key_witness :
  String.prefix (namespacePrefix org bucket) (itemKey (item foreignKey true 7 56)) = false
  /\ scanKeys (namespacePrefix org bucket)
       ([item cpuKey true 4 32] ++ item foreignKey true 7 56 :: [item memKey true 2 16])
       ∅ zeroStats 0
     = scanKeys (namespacePrefix org bucket) [item cpuKey true 4 32] ∅ zeroStats 0.
Proof.
  assert (Hp : String.prefix (namespacePrefix org bucket)
                 (itemKey (item foreignKey true 7 56)) = false)
    by (vm_compute; reflexivity).
  split; [exact Hp|].
  exact (proj1 (key_loop_stops_at_first_foreign_key (namespacePrefix org bucket)
                  [item cpuKey true 4 32] (item foreignKey true 7 56)
                  [item memKey true 2 16] ∅ zeroStats 0 Hp)).
Defined.

Lemma malformed_keys_are_skipped_witness :
  measurementOf brokenKey = ""
  /\ String.prefix (namespacePrefix org bucket) brokenKey = true
  /\ MeasurementNames
       {| FileStore := FileStore engine;
          Cache := [] ++ (brokenKey, entryAt [15]) :: Cache engine |}
       never org bucket 0 20
     = MeasurementNames engine never org bucket 0 20.
Proof.
  assert (Hm : measurementOf brokenKey = "") by (vm_compute; reflexivity).
  split; [exact Hm|]. split; [vm_compute; reflexivity|].
  exact (proj1 (proj2 (proj2 (malformed_keys_are_skipped engine never org bucket 0 20)))
           [] brokenKey (entryAt [15]) (Cache engine) Hm eq_refl).
Defined.

Lemma cache_entry_charged_unless_found_witness :
  Cache engine = [] ++ (cpuKey, entryAt [15]) :: []
  /\ String.prefix (namespacePrefix org bucket) cpuKey = true
  /\ measurementOf cpuKey ∈ tsmValues (segmentState engine org bucket 0 20)
  /\ (cacheVisitor (namespacePrefix org bucket) 0 20 cpuKey (entryAt [15])
        (visitEntries (cacheVisitor (namespacePrefix org bucket) 0 20) []
           (segmentState engine org bucket 0 20))).1
     = visitEntries (cacheVisitor (namespacePrefix org bucket) 0 20) []
         (segmentState engine org bucket 0 20).
Proof.
  assert (Hp : String.prefix (namespacePrefix org bucket) cpuKey = true)
    by (vm_compute; reflexivity).
  assert (Hin : measurementOf cpuKey ∈ tsmValues (segmentState engine org bucket 0 20))
    by (vm_compute; reflexivity).
  split; [reflexivity|]. split; [exact Hp|]. split; [exact Hin|].
  exact (proj1 (proj2 (proj2 (cache_entry_charged_unless_found engine org bucket 0 20
                  [] cpuKey (entryAt [15]) [] eq_refl Hp))) Hin).
Defined.


(** C2, counterexample. The cache entry of the scenario carries the prefix,
    yet it is not charged: the segment phase has found its measurement, and the
    statistics returned are those of the segment phase. *)
Lemma found_measurement_is_not_charged :
  exists it,
    MeasurementNames engine never org bucket 0 20 = (Some it, None)
    /\ Forall (fun ke => String.prefix (namespacePrefix org bucket) ke.1 = true)
         (Cache engine)
    /\ iterStats it = stats (segmentState engine org bucket 0 20)
    /\ iterStats it <>
       chargeEveryPrefixedEntry (namespacePrefix org bucket) (Cache engine)
         (stats (segmentState engine org bucket 0 20)).
Proof.
  eexists. split; [vm_compute; reflexivity|]. split_and!.
  - repeat constructor.
  - vm_compute. reflexivity.
  - vm_compute. discriminate.
Qed.


End Scenario.


(** ** Further properties of [MeasurementNames] *)

Section ResultSet.
Context `{codec : KeyCodec}.
Variables (prefix : string) (start end_ : Z).

(** What the key loop records comes from a key that the loop reaches. *)
Lemma scanKeys_sound_reach iter : forall vals s i n,
  n ∈ (scanKeys prefix iter vals s i).1.1 ->
  n ∈ vals
  \/ exists l1 it l2, iter = l1 ++ it :: l2
       /\ Forall (fun x => String.prefix prefix (itemKey x) = true) l1
       /\ positiveItem prefix it n.
Proof.
  induction iter as [|x rest IH]; intros vals s i n; [by left|].
  destruct (String.prefix prefix (itemKey x)) eqn:Hp;
    [|rewrite scanKeys_cons_break by done; by left].
  rewrite scanKeys_cons_prefix by done. cbv zeta.
  assert (Hlift : forall vals' s' i',
    n ∈ (scanKeys prefix rest vals' s' i').1.1 ->
    n ∈ vals'
    \/ exists l1 it l2, x :: rest = l1 ++ it :: l2
         /\ Forall (fun y => String.prefix prefix (itemKey y) = true) l1
         /\ positiveItem prefix it n).
  { intros vals' s' i' Hn. apply IH in Hn as [Hn | (l1 & it & l2 & -> & Hall & Hpos)];
      [by left|]. right. exists (x :: l1), it, l2. split_and!; [done| |done].
    by constructor. }
  destruct (String.length _ =? 0)%nat eqn:Hlen; [apply Hlift|].
  case_bool_decide; [apply Hlift|].
  destruct (itemHasData x) eqn:Hd; [|apply Hlift].
  intros Hn. apply Hlift in Hn as [Hn | Hreach]; [|by right].
  apply elem_of_union in Hn as [->%elem_of_singleton | Hn]; [|by left].
  right. exists [], x, rest. split_and!; [done|constructor|].
  split_and!; try done. by apply length_zero_false.
Qed.

Lemma visitFile_sound_reach f st n :
  n ∈ tsmValues (visitFile prefix start end_ f st) ->
  n ∈ tsmValues st \/ inSegment prefix start end_ [f] n.
Proof.
  unfold visitFile. destruct (_ && _) eqn:Hov; [|by left].
  destruct (scanKeys _ _ _ _ _) as [[vals istats] i] eqn:Hs. simpl. intros Hn.
  pose proof (scanKeys_sound_reach (TimeRangeIterator f prefix start end_)
                (tsmValues st) zeroStats 0 n) as Hsound.
  rewrite Hs in Hsound.
  destruct (Hsound Hn) as [? | (l1 & it & l2 & Hiter & Hall & Hpos)]; [by left|].
  right. exists f, l1, it, l2. split_and!; try done. by left.
Qed.

Lemma inSegment_mono files files' n :
  (forall f, f ∈ files -> f ∈ files') ->
  inSegment prefix start end_ files n -> inSegment prefix start end_ files' n.
Proof.
  intros Hsub (f & l1 & it & l2 & Hin & Hrest). exists f, l1, it, l2. split; [auto|done].
Qed.

Lemma processFiles_sound_reach files : forall st n,
  n ∈ tsmValues (processFiles prefix start end_ files st) ->
  n ∈ tsmValues st \/ inSegment prefix start end_ files n.
Proof.
  induction files as [|f files IH]; intros st n; [by left|].
  unfold processFiles in *. simpl. intros Hn.
  apply IH in Hn as [Hn | Hseg].
  - apply visitFile_sound_reach in Hn as [Hn | Hseg]; [by left|].
    right. eapply inSegment_mono; [|done].
    intros f' ->%list_elem_of_singleton. by left.
  - right. eapply inSegment_mono; [|done]. intros f' Hf'. by right.
Qed.

Lemma inSegment_perm files files' n :
  files ≡ₚ files' ->
  inSegment prefix start end_ files n <-> inSegment prefix start end_ files' n.
Proof.
  intros Hperm. split; apply inSegment_mono; intros f; by rewrite Hperm.
Qed.

Lemma cacheSignal_perm entries entries' n :
  entries ≡ₚ entries' ->
  cacheSignal prefix start end_ entries n <-> cacheSignal prefix start end_ entries' n.
Proof.
  intros Hperm. unfold cacheSignal. split; intros (k & en & Hin & Hpos);
    exists k, en; split; try done; by rewrite ?Hperm in *.
Qed.

End ResultSet.

Section StateUpToClock.
Context `{codec : KeyCodec}.
Variables (prefix : string) (start end_ : Z).

Lemma sameScan_refl st : sameScan st st.
Proof. by split_and!. Qed.

Lemma sameScan_tick st : sameScan (tick st) st.
Proof. by split_and!. Qed.

Lemma visitFile_sameScan f st st' :
  sameScan st st' ->
  sameScan (visitFile prefix start end_ f st) (visitFile prefix start end_ f st').
Proof.
  intros (Hv & Hs & Hc). unfold visitFile. destruct (_ && _); [|by split_and!].
  rewrite Hv. destruct (scanKeys _ _ _ _ _) as [[vals istats] i].
  split_and!; simpl; congruence.
Qed.

Lemma processFiles_sameScan files : forall st st',
  sameScan st st' ->
  sameScan (processFiles prefix start end_ files st) (processFiles prefix start end_ files st').
Proof.
  induction files as [|f files IH]; intros st st' Hsame; [done|].
  unfold processFiles in *. simpl. apply IH, visitFile_sameScan.
  destruct Hsame as (Hv & Hs & Hc). by split_and!.
Qed.

Lemma cacheVisitor_sameScan sfkey en st st' :
  sameScan st st' ->
  sameScan (cacheVisitor prefix start end_ sfkey en st).1
           (cacheVisitor prefix start end_ sfkey en st').1.
Proof.
  intros (Hv & Hs & Hc). unfold cacheVisitor.
  destruct (negb _); [by split_and!|].
  destruct (String.length _ =? 0)%nat; [by split_and!|].
  rewrite Hv. case_bool_decide; [by split_and!|].
  split_and!; simpl; congruence.
Qed.

Lemma visitEntries_sameScan entries : forall st st',
  sameScan st st' ->
  sameScan (visitEntries (cacheVisitor prefix start end_) entries st)
           (visitEntries (cacheVisitor prefix start end_) entries st').
Proof.
  induction entries as [|[sfkey en] entries IH]; intros st st' Hsame; [done|].
  unfold visitEntries in *. simpl. by apply IH, cacheVisitor_sameScan.
Qed.

Lemma processFiles_app files1 files2 st :
  processFiles prefix start end_ (files1 ++ files2) st =
  processFiles prefix start end_ files2 (processFiles prefix start end_ files1 st).
Proof. unfold processFiles. by rewrite fold_left_app. Qed.

(** A file that does not overlap does not change the scan. *)
Lemma processFiles_skip files1 f files2 st :
  overlaps prefix start end_ f = false ->
  sameScan (processFiles prefix start end_ (files1 ++ f :: files2) st)
           (processFiles prefix start end_ (files1 ++ files2) st).
Proof.
  intros Hov. rewrite !processFiles_app.
  change (processFiles prefix start end_ (f :: files2) ?x)
    with (processFiles prefix start end_ files2 (visitFile prefix start end_ f (tick x))).
  apply processFiles_sameScan.
  unfold visitFile. unfold overlaps in Hov. rewrite Hov. apply sameScan_tick.
Qed.

End StateUpToClock.

Section EngineExtras.
Context `{codec : KeyCodec}.

Lemma finalState_exact (e : Engine) (orgID bucketID start end_ : Z) (n : string) :
  n ∈ tsmValues (finalState e orgID bucketID start end_)
  <-> inSegment (namespacePrefix orgID bucketID) start end_ (FileStore e) n
      \/ cacheSignal (namespacePrefix orgID bucketID) start end_ (Cache e) n.
Proof.
  split.
  - intros Hn. apply visitEntries_sound in Hn as [Hn | Hcache]; [|by right].
    apply processFiles_sound_reach in Hn as [Hn | Hseg]; [set_solver|by left].
  - intros [Hseg | Hcache].
    + apply visitEntries_mono. by apply processFiles_complete.
    + by apply visitEntries_complete.
Qed.

(** X1. The names a run that is not canceled returns are exactly the
    measurements with a positive signal: those of a key that the loop over
    a scanned file reaches (every key before it in the cursor carries the
    prefix) and for which the cursor reports data, and those of a cache
    entry with the prefix whose [Contains] test succeeds. *)
Theorem MeasurementNames_exact
    (e : Engine) (ctx : Context) (orgID bucketID start end_ : Z) :
  uncanceled e ctx ->
  exists it,
    MeasurementNames e ctx orgID bucketID start end_ = (Some it, None)
    /\ forall n,
         n ∈ iterValues it
         <-> inSegment (namespacePrefix orgID bucketID) start end_ (FileStore e) n
             \/ cacheSignal (namespacePrefix orgID bucketID) start end_ (Cache e) n.
Proof.
  intros Hlive. rewrite MeasurementNames_uncanceled by done.
  eexists. split; [reflexivity|]. intros n. simpl.
  rewrite (proj2 (proj2 (sort_Strings_elements _))). apply finalState_exact.
Qed.

(** X2. The names do not depend on the order in which [ForEachFile] visits
    the files nor on the order in which [ApplyEntryFn] visits the cache
    entries: two engines with the same files and the same entries, in any
    order, return the same sequence of names. *)
Theorem MeasurementNames_order_independent
    (e e' : Engine) (ctx : Context) (orgID bucketID start end_ : Z) :
  FileStore e' ≡ₚ FileStore e ->
  Cache e' ≡ₚ Cache e ->
  uncanceled e ctx ->
  exists it it',
    MeasurementNames e ctx orgID bucketID start end_ = (Some it, None)
    /\ MeasurementNames e' ctx orgID bucketID start end_ = (Some it', None)
    /\ iterValues it' = iterValues it.
Proof.
  intros Hfiles Hcache Hlive.
  assert (Hlive' : uncanceled e' ctx).
  { intros k Hk. apply Hlive. by rewrite <- Hfiles. }
  rewrite !MeasurementNames_uncanceled by done.
  eexists _, _. split_and!; [reflexivity..|]. simpl. do 2 f_equal.
  apply set_eq. intros n. rewrite !finalState_exact.
  by rewrite (inSegment_perm _ _ _ _ _ n Hfiles), (cacheSignal_perm _ _ _ _ _ n Hcache).
Qed.

(** X3. When the poll of index [d] finds the context done, the files from
    index [d] on and the whole cache are never consulted: an engine that
    agrees on the first [d] files returns the same iterator and error. *)
Theorem canceled_run_ignores_the_rest
    (e e' : Engine) (ctx : Context) (orgID bucketID start end_ : Z) (d : nat) :
  firesInSegmentPhase e ctx d ->
  (d < length (FileStore e'))%nat ->
  take d (FileStore e') = take d (FileStore e) ->
  MeasurementNames e' ctx orgID bucketID start end_
  = MeasurementNames e ctx orgID bucketID start end_.
Proof.
  intros Hfire Hlen Htake. unfold MeasurementNames.
  assert (Hfire' : firesInSegmentPhase e' ctx d) by (destruct Hfire; by split).
  rewrite !(MeasurementNamesWith_fired _ _ _ _ _ _ _ d) by done.
  by rewrite Htake.
Qed.

(** X4. A context that fires when the segment phase has no poll left to
    make, after the last file was reached or with an empty file store (be
    the context canceled before the call), is never observed: the call
    scans the cache, returns a nil error and returns what it returns under
    a context that never fires. *)
Theorem late_cancellation_is_not_observed
    (e : Engine) (ctx : Context) (orgID bucketID start end_ : Z) (d : nat) :
  cancelAt ctx = Some d ->
  (length (FileStore e) <= d)%nat ->
  (MeasurementNames e ctx orgID bucketID start end_).2 = None
  /\ MeasurementNames e ctx orgID bucketID start end_
     = MeasurementNames e {| cancelAt := None; cause := cause ctx |}
         orgID bucketID start end_.
Proof.
  intros Hd Hle.
  assert (Hlive : uncanceled e ctx).
  { intros k Hk. unfold Done. rewrite Hd. apply Nat.leb_gt. lia. }
  assert (Hnever : uncanceled e {| cancelAt := None; cause := cause ctx |}) by done.
  by rewrite !MeasurementNames_uncanceled.
Qed.

(** X5. A file whose time range or key range does not overlap the query
    contributes nothing, neither a name nor statistics: in a run that is
    not canceled the call returns what it returns without the file. *)
Theorem non_overlapping_file_ignored
    (e : Engine) (ctx : Context) (orgID bucketID start end_ : Z)
    (files1 : list TSMFile) (f : TSMFile) (files2 : list TSMFile) :
  FileStore e = files1 ++ files2 ->
  overlaps (namespacePrefix orgID bucketID) start end_ f = false ->
  uncanceled {| FileStore := files1 ++ f :: files2; Cache := Cache e |} ctx ->
  MeasurementNames {| FileStore := files1 ++ f :: files2; Cache := Cache e |}
    ctx orgID bucketID start end_
  = MeasurementNames e ctx orgID bucketID start end_.
Proof.
  intros Hfiles Hov Hlive'.
  set (e' := {| FileStore := files1 ++ f :: files2; Cache := Cache e |}) in *.
  assert (Hlive : uncanceled e ctx).
  { intros k Hk. apply Hlive'. simpl. rewrite Hfiles in Hk.
    rewrite length_app in *. simpl. lia. }
  rewrite !MeasurementNames_uncanceled by done.
  assert (Hsame : sameScan (finalState e' orgID bucketID start end_)
                           (finalState e orgID bucketID start end_)).
  { unfold finalState, segmentState. simpl. rewrite Hfiles.
    by apply visitEntries_sameScan, processFiles_skip. }
  destruct Hsame as (-> & -> & _). done.
Qed.

(** X6. A cache entry whose key does not carry the namespace prefix
    contributes nothing, whatever its values: it is not charged and no
    name comes from it.  The call returns what it returns without the
    entry, canceled or not. *)
Theorem foreign_cache_entry_ignored
    (e : Engine) (ctx : Context) (orgID bucketID start end_ : Z)
    (l1 : list (string * entry)) (sfkey : string) (en : entry)
    (l2 : list (string * entry)) :
  Cache e = l1 ++ l2 ->
  String.prefix (namespacePrefix orgID bucketID) sfkey = false ->
  MeasurementNames {| FileStore := FileStore e; Cache := l1 ++ (sfkey, en) :: l2 |}
    ctx orgID bucketID start end_
  = MeasurementNames e ctx orgID bucketID start end_.
Proof.
  intros Hcache Hp.
  set (e' := {| FileStore := FileStore e; Cache := l1 ++ (sfkey, en) :: l2 |}).
  destruct (uncanceled_or_fired e ctx) as [Hlive | [d Hfire]].
  - rewrite !MeasurementNames_uncanceled by done.
    assert (Hfin : finalState e' orgID bucketID start end_
                   = finalState e orgID bucketID start end_).
    { unfold finalState, segmentState. simpl. rewrite Hcache.
      apply visitEntries_skip. auto. }
    by rewrite Hfin.
  - unfold MeasurementNames.
    by rewrite !(MeasurementNamesWith_fired _ _ _ _ _ _ _ d).
Qed.

End EngineExtras.

Section ScenarioExtras.
Import Demo.
Local Existing Instance SpecCodec.codec.

Lemma MeasurementNames_exact_witness :
  uncanceled engine never
  /\ exists it,
       MeasurementNames engine never org bucket 0 20 = (Some it, None)
       /\ forall n,
            n ∈ iterValues it
            <-> inSegment (namespacePrefix org bucket) 0 20 (FileStore engine) n
                \/ cacheSignal (namespacePrefix org bucket) 0 20 (Cache engine) n.
Proof.
  split; [exact never_uncanceled|].
  exact (MeasurementNames_exact engine never org bucket 0 20 never_uncanceled).
Defined.

Lemma MeasurementNames_order_independent_witness :
  FileStore {| FileStore := [segmentB; segmentA]; Cache := Cache engine |}
    ≡ₚ FileStore engine
  /\ Cache {| FileStore := [segmentB; segmentA]; Cache := Cache engine |}
       ≡ₚ Cache engine
  /\ uncanceled engine never
  /\ exists it it',
       MeasurementNames engine never org bucket 0 20 = (Some it, None)
       /\ MeasurementNames {| FileStore := [segmentB; segmentA]; Cache := Cache engine |}
            never org bucket 0 20 = (Some it', None)
       /\ iterValues it' = iterValues it.
Proof.
  assert (Hf : FileStore {| FileStore := [segmentB; segmentA]; Cache := Cache engine |}
                 ≡ₚ FileStore engine) by apply perm_swap.
  assert (Hc : Cache {| FileStore := [segmentB; segmentA]; Cache := Cache engine |}
                 ≡ₚ Cache engine) by reflexivity.
  split; [exact Hf|]. split; [exact Hc|]. split; [exact never_uncanceled|].
  exact (MeasurementNames_order_independent engine
           {| FileStore := [segmentB; segmentA]; Cache := Cache engine |}
           never org bucket 0 20 Hf Hc never_uncanceled).
Defined.

Lemma canceled_run_ignores_the_rest_witness :
  firesInSegmentPhase engine (firesAt 1) 1
  /\ (1 < length (FileStore {| FileStore := [segmentA; segmentA; segmentB]; Cache := [] |}))%nat
  /\ take 1 (FileStore {| FileStore := [segmentA; segmentA; segmentB]; Cache := [] |})
     = take 1 (FileStore engine)
  /\ MeasurementNames {| FileStore := [segmentA; segmentA; segmentB]; Cache := [] |}
       (firesAt 1) org bucket 0 20
     = MeasurementNames engine (firesAt 1) org bucket 0 20.
Proof.
  assert (Hlen : (1 < length (FileStore {| FileStore := [segmentA; segmentA; segmentB];
                                            Cache := [] |}))%nat) by (simpl; lia).
  split; [exact firesAt_1_fires|]. split; [exact Hlen|]. split; [reflexivity|].
  exact (canceled_run_ignores_the_rest engine
           {| FileStore := [segmentA; segmentA; segmentB]; Cache := [] |}
           (firesAt 1) org bucket 0 20 1%nat firesAt_1_fires Hlen eq_refl).
Defined.

Lemma late_cancellation_is_not_observed_witness :
  cancelAt (firesAt 0) = Some 0%nat
  /\ (length (FileStore {| FileStore := []; Cache := Cache engine |}) <= 0)%nat
  /\ (MeasurementNames {| FileStore := []; Cache := Cache engine |}
        (firesAt 0) org bucket 0 20).2 = None
  /\ MeasurementNames {| FileStore := []; Cache := Cache engine |}
       (firesAt 0) org bucket 0 20
     = MeasurementNames {| FileStore := []; Cache := Cache engine |}
         {| cancelAt := None; cause := cause (firesAt 0) |} org bucket 0 20.
Proof.
  assert (Hle : (length (FileStore {| FileStore := []; Cache := Cache engine |}) <= 0)%nat)
    by (simpl; lia).
  split; [reflexivity|]. split; [exact Hle|].
  exact (late_cancellation_is_not_observed {| FileStore := []; Cache := Cache engine |}
           (firesAt 0) org bucket 0 20 0%nat eq_refl Hle).
Defined.

Lemma non_overlapping_file_ignored_witness :
  FileStore engine = [segmentA] ++ [segmentB]
  /\ overlaps (namespacePrefix org bucket) 0 20 DemoMore.segmentLate = false
  /\ uncanceled {| FileStore := [segmentA] ++ DemoMore.segmentLate :: [segmentB];
                   Cache := Cache engine |} never
  /\ MeasurementNames {| FileStore := [segmentA] ++ DemoMore.segmentLate :: [segmentB];
                         Cache := Cache engine |} never org bucket 0 20
     = MeasurementNames engine never org bucket 0 20.
Proof.
  assert (Hlive : uncanceled {| FileStore := [segmentA] ++ DemoMore.segmentLate :: [segmentB];
                                Cache := Cache engine |} never)
    by (intros k _; reflexivity).
  split; [reflexivity|]. split; [reflexivity|]. split; [exact Hlive|].
  exact (non_overlapping_file_ignored engine never org bucket 0 20
           [segmentA] DemoMore.segmentLate [segmentB] eq_refl eq_refl Hlive).
Defined.

Lemma foreign_cache_entry_ignored_witness :
  Cache engine = [] ++ Cache engine
  /\ String.prefix (namespacePrefix org bucket) foreignKey = false
  /\ MeasurementNames {| FileStore := FileStore engine;
                         Cache := [] ++ (foreignKey, entryAt [5; 15]) :: Cache engine |}
       never org bucket 0 20
     = MeasurementNames engine never org bucket 0 20.
Proof.
  assert (Hp : String.prefix (namespacePrefix org bucket) foreignKey = false)
    by (vm_compute; reflexivity).
  split; [reflexivity|]. split; [exact Hp|].
  exact (foreign_cache_entry_ignored engine never org bucket 0 20
           [] foreignKey (entryAt [5; 15]) (Cache engine) eq_refl Hp).
Defined.

End ScenarioExtras.

(** * Properties of the configurations *)

Section RangeLoops.
Import config.

Lemma rangeAssign_notin f l : forall (m : Configs) k,
  k ∉ l.*1 -> rangeAssign f l m !! k = m !! k.
Proof.
  induction l as [|[k' v'] l IH]; intros m k Hk; [done|].
  simpl in *. apply not_elem_of_cons in Hk as [Hne Hk].
  rewrite IH by done. by rewrite lookup_insert_ne.
Qed.

Lemma rangeAssign_in f l : forall (m : Configs) k v,
  NoDup l.*1 -> (k, v) ∈ l -> rangeAssign f l m !! k = Some (f k v).
Proof.
  induction l as [|[k' v'] l IH]; intros m k v Hnd Hin.
  - by apply elem_of_nil in Hin.
  - simpl in *. apply NoDup_cons in Hnd as [Hnotin Hnd].
    apply elem_of_cons in Hin as [[= -> ->] | Hin].
    + rewrite rangeAssign_notin by done. apply lookup_insert_eq.
    + by apply IH.
Qed.

Lemma entriesIn_spec (o : rangeOrder) (m : Configs) k v :
  (k, v) ∈ entriesIn o m <-> m !! k = Some v.
Proof.
  unfold entriesIn. destruct o as [o Ho]. simpl.
  rewrite (Ho m). apply elem_of_map_to_list.
Qed.

Lemma entriesIn_NoDup (o : rangeOrder) (m : Configs) : NoDup (entriesIn o m).
Proof.
  unfold entriesIn. destruct o as [o Ho]. simpl.
  rewrite (Ho m). apply NoDup_map_to_list.
Qed.

Lemma entriesIn_NoDup_fst (o : rangeOrder) (m : Configs) : NoDup (entriesIn o m).*1.
Proof.
  unfold entriesIn. destruct o as [o Ho]. simpl.
  rewrite (Ho m). apply NoDup_fst_map_to_list.
Qed.

(** A loop that assigns to every key of the map it ranges over transforms
    every entry once, in whatever order it goes. *)
Lemma rangeAssign_entries f (o : rangeOrder) (m : Configs) k :
  rangeAssign f (entriesIn o m) m !! k = f k <$> m !! k.
Proof.
  destruct (m !! k) as [v|] eqn:Hk; simpl.
  - apply rangeAssign_in; [apply entriesIn_NoDup_fst|by apply entriesIn_spec].
  - rewrite rangeAssign_notin; [done|].
    intros ((k' & v) & -> & Hin)%list_elem_of_fmap.
    apply entriesIn_spec in Hin. simpl in Hk. congruence.
Qed.

Lemma activeLoop_none cur txt l : forall a h,
  Forall (fun kp => flagged cur kp.2 = false) l ->
  activeLoop cur txt l a h =
  if h then (a, None)
  else (DefaultConfig,
        Some (InfluxError ENotFound (txt ++ "activated config is not found")%string)).
Proof.
  induction l as [|[k p] l IH]; intros a h Hall; [done|].
  apply Forall_cons in Hall as [Hp Hall]. simpl in *.
  unfold flagged in Hp. rewrite Hp. simpl. by apply IH.
Qed.

Lemma activeLoop_conflict cur txt l : forall a,
  Exists (fun kp => flagged cur kp.2 = true) l ->
  activeLoop cur txt l a true =
  (DefaultConfig,
   Some (InfluxError EConflict
           ("more than one " ++ txt ++ "activated configs found")%string)).
Proof.
  induction l as [|[k p] l IH]; intros a Hex; [by apply Exists_nil in Hex|].
  simpl. destruct (if cur then Active p else PreviousActive p) eqn:Hp; simpl; [done|].
  apply Exists_cons in Hex as [Hex | Hex]; [|by apply IH].
  unfold flagged in Hex. simpl in Hex. congruence.
Qed.

Lemma activeLoop_first cur txt l1 : forall k p l2 a,
  Forall (fun kp => flagged cur kp.2 = false) l1 ->
  flagged cur p = true ->
  activeLoop cur txt (l1 ++ (k, p) :: l2) a false = activeLoop cur txt l2 p true.
Proof.
  induction l1 as [|[k' p'] l1 IH]; intros k p l2 a Hall Hp.
  - simpl. unfold flagged in Hp. by rewrite Hp.
  - apply Forall_cons in Hall as [Hp' Hall]. simpl in *.
    unfold flagged in Hp'. rewrite Hp'. simpl. by apply IH.
Qed.

Lemma activeLoop_two cur txt l : forall a x y,
  x ∈ l -> y ∈ l -> x <> y ->
  flagged cur x.2 = true -> flagged cur y.2 = true ->
  activeLoop cur txt l a false =
  (DefaultConfig,
   Some (InfluxError EConflict
           ("more than one " ++ txt ++ "activated configs found")%string)).
Proof.
  induction l as [|[k p] l IH]; intros a x y Hx Hy Hne Hfx Hfy.
  - by apply elem_of_nil in Hx.
  - simpl. destruct (if cur then Active p else PreviousActive p) eqn:Hp; simpl.
    + apply activeLoop_conflict. apply Exists_exists.
      apply elem_of_cons in Hx as [-> | Hx].
      * apply elem_of_cons in Hy as [-> | Hy]; [done|]. by exists y.
      * by exists x.
    + assert (Hnf : flagged cur (k, p).2 = false) by done.
      apply elem_of_cons in Hx as [-> | Hx]; [congruence|].
      apply elem_of_cons in Hy as [-> | Hy]; [congruence|].
      by apply (IH a x y).
Qed.

Lemma blockBadNameLoop_spec l :
  blockBadNameLoop l = None <-> "-" ∉ l.*1.
Proof.
  induction l as [|[n p] l IH]; simpl.
  - split; [intros _; apply not_elem_of_nil|done].
  - case_bool_decide as Hn.
    + subst n. split; [done|]. intros Hnotin. exfalso. apply Hnotin. by left.
    + rewrite IH. split.
      * intros Hl. by apply not_elem_of_cons.
      * by intros [_ Hl]%not_elem_of_cons.
Qed.

End RangeLoops.

Section ConfigProps.
Import config.
Variable quote : string -> string.
Variable Reader : Type.
Variable DecodeReader : Reader -> Configs * option error.

Lemma blockBadNameLoop_error l :
  blockBadNameLoop l = None
  \/ blockBadNameLoop l
     = Some (InfluxError EInvalid (dq ++ "-" ++ dq ++ " is not a valid config name")%string).
Proof.
  induction l as [|[n p] l IH]; simpl; [by left|].
  case_bool_decide; [by right|done].
Qed.

(** X7. [Switch] to a name that is not configured returns the not-found
    error and leaves the configurations as they are.  [Switch] to a
    configured name returns no error and, in whatever order the loop goes
    through the map, keeps the set of names, makes the named configuration
    the only active one, records in [PreviousActive] of every configuration
    whether it was active before, and keeps the other fields. *)
Theorem Switch_spec (o : rangeOrder) (pp : Configs) (name : string) :
  (pp !! name = None ->
     Switch quote o pp name
     = (pp, Some (InfluxError ENotFound
                    ("config " ++ quote name ++ " is not found")%string)))
  /\ (forall v, pp !! name = Some v ->
        exists pp',
          Switch quote o pp name = (pp', None)
          /\ dom pp' = dom pp
          /\ (forall k, pp' !! k = switchEntry name k <$> pp !! k)
          /\ (forall k p, pp' !! k = Some p -> (Active p = true <-> k = name))
          /\ (forall k p p0, pp' !! k = Some p -> pp !! k = Some p0 ->
                PreviousActive p = Active p0 /\ Name p = Name p0
                /\ Host p = Host p0 /\ Token p = Token p0 /\ Org p = Org p0)).
Proof.
  split.
  - intros Hnone. unfold Switch. by rewrite Hnone.
  - intros v Hv. unfold Switch. rewrite Hv. eexists. split; [reflexivity|].
    assert (Hlook : forall k,
      rangeAssign (switchEntry name) (entriesIn o pp) pp !! k
      = switchEntry name k <$> pp !! k) by (intros k; apply rangeAssign_entries).
    split_and!.
    + apply set_eq. intros k. rewrite !elem_of_dom, Hlook. apply fmap_is_Some.
    + done.
    + intros k p. rewrite Hlook. destruct (pp !! k) as [p0|]; [|done].
      simpl. intros [= <-]. simpl. apply bool_decide_eq_true.
    + intros k p p0. rewrite Hlook. intros Hp Hp0. rewrite Hp0 in Hp.
      simpl in Hp. injection Hp as <-. done.
Qed.

(** X8. [ParseConfigs] returns the error of the decoder as it is, and in
    the map it returns, also beside an error, every configuration has the
    key it is stored under as its [Name] and its other fields as
    decoded. *)
Theorem ParseConfigs_names (o : rangeOrder) (r : Reader) :
  (ParseConfigs Reader DecodeReader o r).2 = (DecodeReader r).2
  /\ (forall n, (ParseConfigs Reader DecodeReader o r).1 !! n
                = setName n <$> (DecodeReader r).1 !! n)
  /\ (forall n p, (ParseConfigs Reader DecodeReader o r).1 !! n = Some p -> Name p = n).
Proof.
  unfold ParseConfigs. destruct (DecodeReader r) as [pp err]. simpl.
  assert (Hlook : forall n,
    rangeAssign setName (entriesIn o pp) pp !! n = setName n <$> pp !! n)
    by (intros n; apply rangeAssign_entries).
  split_and!; [done|done|].
  intros n p. rewrite Hlook. destruct (pp !! n); [|done]. by intros [= <-].
Qed.

Lemma flagged_setName cur n p : flagged cur (setName n p) = flagged cur p.
Proof. by destruct cur. Qed.

(** X9. [parseActiveConfig] returns the error of the decoder, with the
    default configuration, when decoding fails.  Otherwise, in whatever
    order the loops go through the map: when no configuration has the flag
    it returns the default configuration and the not-found error; when
    exactly one has it, that configuration, named after its key, and no
    error; when two have it, the default configuration and the conflict
    error. *)
Theorem parseActiveConfig_spec (o1 o2 : rangeOrder) (r : Reader) (cur : bool) :
  let txt := if cur then "" else "previous " in
  let result := parseActiveConfig Reader DecodeReader o1 o2 r cur in
  (forall pp err, DecodeReader r = (pp, Some err) -> result = (DefaultConfig, Some err))
  /\ (forall pp, DecodeReader r = (pp, None) ->
        ((forall k p, pp !! k = Some p -> flagged cur p = false) ->
           result = (DefaultConfig,
                     Some (InfluxError ENotFound
                             (txt ++ "activated config is not found")%string)))
        /\ (forall k p,
              pp !! k = Some p -> flagged cur p = true ->
              (forall k' p', pp !! k' = Some p' -> flagged cur p' = true -> k' = k) ->
              result = (setName k p, None))
        /\ (forall k1 p1 k2 p2,
              k1 <> k2 -> pp !! k1 = Some p1 -> pp !! k2 = Some p2 ->
              flagged cur p1 = true -> flagged cur p2 = true ->
              result = (DefaultConfig,
                        Some (InfluxError EConflict
                                ("more than one " ++ txt
                                 ++ "activated configs found")%string)))).
Proof.
  intros txt result. subst result. unfold parseActiveConfig.
  pose proof (ParseConfigs_names o1 r) as (Herr & Hlook & _).
  destruct (ParseConfigs Reader DecodeReader o1 r) as [pp' err'] eqn:Hparse.
  simpl in Herr, Hlook. split.
  - intros pp err Hdec. rewrite Hdec in Herr. simpl in Herr. by subst err'.
  - intros pp Hdec. rewrite Hdec in Herr, Hlook. simpl in Herr, Hlook. subst err'.
    fold txt. split_and!.
    + intros Hnone. rewrite activeLoop_none; [done|].
      apply Forall_forall. intros [k p'] Hin%entriesIn_spec. simpl.
      rewrite Hlook in Hin. destruct (pp !! k) as [p|] eqn:Hk; [|done].
      injection Hin as <-. rewrite flagged_setName. by apply (Hnone k).
    + intros k p Hk Hp Huniq.
      assert (Hin : (k, setName k p) ∈ entriesIn o2 pp').
      { apply entriesIn_spec. by rewrite Hlook, Hk. }
      apply list_elem_of_split in Hin as (l1 & l2 & Hl).
      pose proof (entriesIn_NoDup o2 pp') as Hnd. rewrite Hl in Hnd.
      apply NoDup_app in Hnd as (_ & Hl1 & Hnd2).
      apply NoDup_cons in Hnd2 as [Hl2 _].
      assert (Hother : forall kp, kp ∈ entriesIn o2 pp' -> kp <> (k, setName k p) ->
                flagged cur kp.2 = false).
      { intros [k' p'] Hin%entriesIn_spec Hne. simpl.
        rewrite Hlook in Hin. destruct (pp !! k') as [p0|] eqn:Hk'; [|done].
        injection Hin as <-. rewrite flagged_setName.
        destruct (flagged cur p0) eqn:Hf; [|done].
        assert (k' = k) by eauto. subst k'. congruence. }
      rewrite Hl. rewrite activeLoop_first.
      * rewrite activeLoop_none; [done|].
        apply Forall_forall. intros kp Hkp. apply Hother.
        -- rewrite Hl. apply elem_of_app. right. by right.
        -- intros ->. done.
      * apply Forall_forall. intros kp Hkp. apply Hother.
        -- rewrite Hl. apply elem_of_app. by left.
        -- intros ->. apply (Hl1 _ Hkp). by left.
      * by rewrite flagged_setName.
    + intros k1 p1 k2 p2 Hne Hk1 Hk2 Hp1 Hp2.
      apply (activeLoop_two cur txt _ _ (k1, setName k1 p1) (k2, setName k2 p2)).
      * apply entriesIn_spec. by rewrite Hlook, Hk1.
      * apply entriesIn_spec. by rewrite Hlook, Hk2.
      * congruence.
      * simpl. by rewrite flagged_setName.
      * simpl. by rewrite flagged_setName.
Qed.

(** X10. After a successful [Switch], a reader that decodes to the switched
    configurations makes [ParseActiveConfig] return, without error, the
    configuration switched to: named after its key, active, with its
    other fields as before and [PreviousActive] telling whether it was
    active before. *)
Theorem Switch_then_ParseActiveConfig
    (o o1 o2 : rangeOrder) (pp : Configs) (name : string) (v : Config) (r : Reader) :
  pp !! name = Some v ->
  DecodeReader r = ((Switch quote o pp name).1, None) ->
  ParseActiveConfig Reader DecodeReader o1 o2 r
  = ({| Name := name; Host := Host v; Token := Token v; Org := Org v;
        Active := true; PreviousActive := Active v |}, None).
Proof.
  intros Hv Hdec.
  destruct (proj2 (Switch_spec o pp name) v Hv) as (pp' & Hsw & _ & Hlook & Hact & _).
  rewrite Hsw in Hdec. simpl in Hdec.
  destruct (parseActiveConfig_spec o1 o2 r true) as [_ Hok].
  destruct (Hok pp' Hdec) as (_ & Hone & _).
  unfold ParseActiveConfig.
  rewrite (Hone name (switchEntry name name v)).
  - unfold setName, switchEntry. simpl. by rewrite bool_decide_eq_true_2.
  - by rewrite Hlook, Hv.
  - simpl. by apply bool_decide_eq_true_2.
  - intros k' p' Hk' Hp'. by apply (Hact k' p').
Qed.

(** X11. After a successful [Switch], [ParsePreviousActive] on a reader
    that decodes to the switched configurations returns the configuration
    that was the only active one before the switch, marked as previously
    active; when no configuration was active before, it returns the
    default configuration and the not-found error. *)
Theorem Switch_then_ParsePreviousActive
    (o o1 o2 : rangeOrder) (pp : Configs) (name : string) (v : Config) (r : Reader) :
  pp !! name = Some v ->
  DecodeReader r = ((Switch quote o pp name).1, None) ->
  (forall a va,
      pp !! a = Some va -> Active va = true ->
      (forall k p, pp !! k = Some p -> Active p = true -> k = a) ->
      ParsePreviousActive Reader DecodeReader o1 o2 r
      = ({| Name := a; Host := Host va; Token := Token va; Org := Org va;
            Active := bool_decide (a = name); PreviousActive := true |}, None))
  /\ ((forall k p, pp !! k = Some p -> Active p = false) ->
      ParsePreviousActive Reader DecodeReader o1 o2 r
      = (DefaultConfig,
         Some (InfluxError ENotFound "previous activated config is not found"))).
Proof.
  intros Hv Hdec.
  destruct (proj2 (Switch_spec o pp name) v Hv) as (pp' & Hsw & _ & Hlook & _ & _).
  rewrite Hsw in Hdec. simpl in Hdec.
  destruct (parseActiveConfig_spec o1 o2 r false) as [_ Hok].
  destruct (Hok pp' Hdec) as (Hnone & Hone & _).
  unfold ParsePreviousActive. split.
  - intros a va Ha Hactive Huniq.
    rewrite (Hone a (switchEntry name a va)).
    + unfold setName, switchEntry. simpl. by rewrite Hactive.
    + by rewrite Hlook, Ha.
    + done.
    + intros k' p'. rewrite Hlook. destruct (pp !! k') as [p0|] eqn:Hk'; [|done].
      simpl. intros [= <-]. simpl. intros Hp0. by apply (Huniq k' p0).
  - intros Hinactive. apply Hnone.
    intros k p. rewrite Hlook. destruct (pp !! k) as [p0|] eqn:Hk; [|done].
    simpl. intros [= <-]. simpl. by apply (Hinactive k).
Qed.

(** X12. [blockBadName] returns the invalid-name error exactly when a
    configuration is named "-", in whatever order the loop goes through
    the map. *)
Theorem blockBadName_spec (o : rangeOrder) (pp : Configs) :
  (pp !! "-" = None -> blockBadName o pp = None)
  /\ (forall p, pp !! "-" = Some p ->
        blockBadName o pp
        = Some (InfluxError EInvalid
                  (dq ++ "-" ++ dq ++ " is not a valid config name")%string)).
Proof.
  unfold blockBadName. split.
  - intros Hnone. apply blockBadNameLoop_spec.
    intros ((k & p) & Hk & Hin)%list_elem_of_fmap. simpl in Hk. subst k.
    apply entriesIn_spec in Hin. congruence.
  - intros p Hp.
    destruct (blockBadNameLoop_error (entriesIn o pp)) as [Hnone | Herr]; [|done].
    apply blockBadNameLoop_spec in Hnone. exfalso. apply Hnone.
    apply list_elem_of_fmap. exists ("-", p). split; [done|].
    by apply entriesIn_spec.
Qed.

End ConfigProps.


Section ConfigScenario.
Import config configDemo.

Lemma Switch_spec_witness :
  three !! "a1" = Some (host "host1" false)
  /\ exists pp',
       Switch quote listOrder three "a1" = (pp', None)
       /\ dom pp' = dom three
       /\ (forall k, pp' !! k = switchEntry "a1" k <$> three !! k)
       /\ (forall k p, pp' !! k = Some p -> (Active p = true <-> k = "a1"))
       /\ (forall k p p0, pp' !! k = Some p -> three !! k = Some p0 ->
             PreviousActive p = Active p0 /\ Name p = Name p0
             /\ Host p = Host p0 /\ Token p = Token p0 /\ Org p = Org p0).
Proof.
  assert (H1 : three !! "a1" = Some (host "host1" false)) by (vm_compute; reflexivity).
  split; [exact H1|].
  exact (proj2 (Switch_spec quote listOrder three "a1") (host "host1" false) H1).
Defined.

Lemma parseActiveConfig_spec_witness :
  DecodeReader (three, None) = (three, None)
  /\ three !! "a3" = Some (host "host3" true)
  /\ flagged true (host "host3" true) = true
  /\ (forall k' p', three !! k' = Some p' -> flagged true p' = true -> k' = "a3")
  /\ parseActiveConfig Reader DecodeReader listOrder listOrder (three, None) true
     = (setName "a3" (host "host3" true), None).
Proof.
  assert (H3 : three !! "a3" = Some (host "host3" true)) by (vm_compute; reflexivity).
  assert (Huniq : forall k' p', three !! k' = Some p' -> flagged true p' = true -> k' = "a3").
  { intros k' p'. unfold three.
    rewrite !lookup_insert. repeat case_decide; subst; try done;
      rewrite ?lookup_empty; intros [= <-]; done. }
  split; [reflexivity|]. split; [exact H3|]. split; [reflexivity|]. split; [exact Huniq|].
  exact (proj1 (proj2 (proj2 (parseActiveConfig_spec Reader DecodeReader
                                listOrder listOrder (three, None) true)
                              three eq_refl))
           "a3" (host "host3" true) H3 eq_refl Huniq).
Defined.

Lemma ParseConfigs_names_witness :
  (ParseConfigs Reader DecodeReader listOrder (three, Some (DecodeError "bad"))).1 !! "a2"
  = Some (setName "a2" (host "host2" false))
  /\ Name (setName "a2" (host "host2" false)) = "a2".
Proof.
  assert (H2 : (ParseConfigs Reader DecodeReader listOrder
                  (three, Some (DecodeError "bad"))).1 !! "a2"
               = Some (setName "a2" (host "host2" false)))
    by (vm_compute; reflexivity).
  split; [exact H2|].
  exact (proj2 (proj2 (ParseConfigs_names Reader DecodeReader listOrder
                         (three, Some (DecodeError "bad"))))
           "a2" (setName "a2" (host "host2" false)) H2).
Defined.

Lemma Switch_then_ParseActiveConfig_witness :
  three !! "a1" = Some (host "host1" false)
  /\ DecodeReader ((Switch quote listOrder three "a1").1, None)
     = ((Switch quote listOrder three "a1").1, None)
  /\ ParseActiveConfig Reader DecodeReader listOrder listOrder
       ((Switch quote listOrder three "a1").1, None)
     = ({| Name := "a1"; Host := "host1"; Token := ""; Org := "";
           Active := true; PreviousActive := false |}, None).
Proof.
  assert (H1 : three !! "a1" = Some (host "host1" false)) by (vm_compute; reflexivity).
  split; [exact H1|]. split; [reflexivity|].
  exact (Switch_then_ParseActiveConfig quote Reader DecodeReader
           listOrder listOrder listOrder three "a1" (host "host1" false)
           ((Switch quote listOrder three "a1").1, None) H1 eq_refl).
Defined.

Lemma Switch_then_ParsePreviousActive_witness :
  three !! "a1" = Some (host "host1" false)
  /\ three !! "a3" = Some (host "host3" true)
  /\ (forall k p, three !! k = Some p -> Active p = true -> k = "a3")
  /\ ParsePreviousActive Reader DecodeReader listOrder listOrder
       ((Switch quote listOrder three "a1").1, None)
     = ({| Name := "a3"; Host := "host3"; Token := ""; Org := "";
           Active := bool_decide ("a3" = "a1"); PreviousActive := true |}, None).
Proof.
  assert (H1 : three !! "a1" = Some (host "host1" false)) by (vm_compute; reflexivity).
  assert (H3 : three !! "a3" = Some (host "host3" true)) by (vm_compute; reflexivity).
  assert (Huniq : forall k p, three !! k = Some p -> Active p = true -> k = "a3").
  { intros k p. unfold three.
    rewrite !lookup_insert. repeat case_decide; subst; try done;
      rewrite ?lookup_empty; intros [= <-]; done. }
  split; [exact H1|]. split; [exact H3|]. split; [exact Huniq|].
  exact (proj1 (Switch_then_ParsePreviousActive quote Reader DecodeReader
                  listOrder listOrder listOrder three "a1" (host "host1" false)
                  ((Switch quote listOrder three "a1").1, None) H1 eq_refl)
           "a3" (host "host3" true) H3 eq_refl Huniq).
Defined.

Lemma blockBadName_spec_witness :
  badName !! "-" = Some zeroConfig
  /\ three !! "-" = None
  /\ blockBadName listOrder badName
     = Some (InfluxError EInvalid (dq ++ "-" ++ dq ++ " is not a valid config name")%string)
  /\ blockBadName listOrder three = None.
Proof.
  assert (Hb : badName !! "-" = Some zeroConfig) by (vm_compute; reflexivity).
  assert (Ht : three !! "-" = None) by (vm_compute; reflexivity).
  split; [exact Hb|]. split; [exact Ht|]. split.
  - exact (proj2 (blockBadName_spec listOrder badName) zeroConfig Hb).
  - exact (proj1 (blockBadName_spec listOrder three) Ht).
Defined.

(** The cases of the package's tests. *)
Example switch_regular :
  Switch quote listOrder three "a1"
  = (<["a1" := {| Name := ""; Host := "host1"; Token := ""; Org := "";
                  Active := true; PreviousActive := false |}]>
       (<["a2" := host "host2" false]>
          (<["a3" := {| Name := ""; Host := "host3"; Token := ""; Org := "";
                        Active := false; PreviousActive := true |}]> ∅)), None).
Proof. vm_compute. reflexivity. Qed.

Example parse_conflicted :
  ParseActiveConfig Reader DecodeReader listOrder listOrder (conflicted, None)
  = (DefaultConfig,
     Some (InfluxError EConflict "more than one activated configs found")).
Proof. vm_compute. reflexivity. Qed.

End ConfigScenario.

(** * The accounting of the cache phase *)

Section CacheAccounting.
Context `{codec : KeyCodec}.

Lemma wrap64_congr (z : Z) : exists q, wrap64 z = (z + 2 ^ 64 * q)%Z.
Proof.
  unfold wrap64. exists (- ((z + 2 ^ 63) / 2 ^ 64))%Z.
  pose proof (Z.div_mod (z + 2 ^ 63) (2 ^ 64)) as Hdm. lia.
Qed.

(** The bytes charged exceed eight times the values charged by a multiple
    of [2 ^ 64], before and after the visitor. *)
Lemma cacheVisitor_bytes prefix start end_ sfkey en st :
  let st' := (cacheVisitor prefix start end_ sfkey en st).1 in
  ((ScannedBytes (stats st') - 8 * ScannedValues (stats st')) mod 2 ^ 64
   = (ScannedBytes (stats st) - 8 * ScannedValues (stats st)) mod 2 ^ 64)%Z.
Proof.
  intros st'. subst st'.
  destruct (cacheVisitor_cases prefix start end_ sfkey en st)
    as [-> | (Hp & Hne & Hnotin)]; [done|].
  rewrite cacheVisitor_charge by done. simpl. unfold int_add, int_mul.
  destruct (wrap64_congr (values_Len en * 8)) as [q1 ->].
  destruct (wrap64_congr (ScannedBytes (stats st) + (values_Len en * 8 + 2 ^ 64 * q1)))
    as [q2 ->].
  destruct (wrap64_congr (ScannedValues (stats st) + values_Len en)) as [q3 ->].
  replace (ScannedBytes (stats st) + (values_Len en * 8 + 2 ^ 64 * q1) + 2 ^ 64 * q2
           - 8 * (ScannedValues (stats st) + values_Len en + 2 ^ 64 * q3))%Z
    with (ScannedBytes (stats st) - 8 * ScannedValues (stats st)
          + (q1 + q2 - 8 * q3) * 2 ^ 64)%Z by lia.
  apply Z_mod_plus_full.
Qed.

Lemma visitEntries_bytes prefix start end_ entries : forall st,
  let st' := visitEntries (cacheVisitor prefix start end_) entries st in
  ((ScannedBytes (stats st') - 8 * ScannedValues (stats st')) mod 2 ^ 64
   = (ScannedBytes (stats st) - 8 * ScannedValues (stats st)) mod 2 ^ 64)%Z.
Proof.
  induction entries as [|[sfkey en] entries IH]; intros st; [done|].
  unfold visitEntries in *. simpl. rewrite IH. apply cacheVisitor_bytes.
Qed.

(** X13. The cache phase charges eight bytes for every value it charges:
    in a run that is not canceled, what the cache phase adds to the
    scanned bytes is eight times what it adds to the scanned values, as
    64-bit integers (modulo [2 ^ 64]). *)
Theorem cache_phase_charges_eight_bytes_per_value
    (e : Engine) (ctx : Context) (orgID bucketID start end_ : Z) :
  uncanceled e ctx ->
  exists it,
    MeasurementNames e ctx orgID bucketID start end_ = (Some it, None)
    /\ ((ScannedBytes (iterStats it)
         - ScannedBytes (stats (segmentState e orgID bucketID start end_))) mod 2 ^ 64
        = (8 * (ScannedValues (iterStats it)
                - ScannedValues (stats (segmentState e orgID bucketID start end_))))
          mod 2 ^ 64)%Z.
Proof.
  intros Hlive. rewrite MeasurementNames_uncanceled by done.
  eexists. split; [reflexivity|]. simpl.
  pose proof (visitEntries_bytes (namespacePrefix orgID bucketID) start end_ (Cache e)
                (segmentState e orgID bucketID start end_)) as Hinv.
  simpl in Hinv. fold (finalState e orgID bucketID start end_) in Hinv.
  set (b' := ScannedBytes (stats (finalState e orgID bucketID start end_))) in *.
  set (v' := ScannedValues (stats (finalState e orgID bucketID start end_))) in *.
  set (b := ScannedBytes (stats (segmentState e orgID bucketID start end_))) in *.
  set (v := ScannedValues (stats (segmentState e orgID bucketID start end_))) in *.
  replace (b' - b)%Z with ((b' - 8 * v') + (8 * v' - b))%Z by lia.
  rewrite Z.add_mod, Hinv, <- Z.add_mod by lia.
  f_equal. lia.
Qed.

End CacheAccounting.

(** * Properties of the authorizing wrapper *)

Section TenantProps.
Import tenant.
Variables (World Ctx ID ResourceType URM Filter FindOptions error : Type).
Variable mappingResourceType : URM -> ResourceType.
Variable mappingResourceID : URM -> ID.
Variable mappingUserID : URM -> ID.
Variable filterOf : ID -> ID -> Filter.
Variable sFindUserResourceMappings :
  Ctx -> Filter -> list FindOptions -> World -> (list URM * Z * option error) * World.
Variable sDeleteUserResourceMapping : Ctx -> ID -> ID -> World -> option error * World.
Variable FindResourceOrganizationID :
  Ctx -> ResourceType -> ID -> World -> (ID * option error) * World.
Variable AuthorizeWrite : Ctx -> ResourceType -> ID -> ID -> option error.

(** The wrapper over services that record the calls of the store. *)
Local Abbreviation recordedDeleteEach :=
  (deleteEach (Recorded World ID URM) Ctx ID ResourceType URM error
     mappingResourceType mappingResourceID mappingUserID
     (recordDelete World Ctx ID URM error sDeleteUserResourceMapping)
     (fun ctx rt id => recordFind World ID URM (FindResourceOrganizationID ctx rt id))
     AuthorizeWrite).

Local Abbreviation deleteCall :=
  (fun u : URM => CallDelete ID URM (mappingResourceID u) (mappingUserID u)).

Local Abbreviation writable :=
  (fun (ctx : Ctx) (u : URM) =>
     exists orgID,
       AuthorizeWrite ctx (mappingResourceType u) (mappingResourceID u) orgID = None).

Local Abbreviation passesAt :=
  (authorizedAndDeleted World Ctx ID ResourceType URM error
     mappingResourceType mappingResourceID mappingUserID
     sDeleteUserResourceMapping FindResourceOrganizationID AuthorizeWrite).

Local Abbreviation failsAt :=
  (failsWith World Ctx ID ResourceType URM error
     mappingResourceType mappingResourceID mappingUserID
     sDeleteUserResourceMapping FindResourceOrganizationID AuthorizeWrite).

Local Abbreviation stateAt :=
  (worldAt World Ctx ID ResourceType URM error
     mappingResourceType mappingResourceID mappingUserID
     sDeleteUserResourceMapping FindResourceOrganizationID).

(** The loop over a store that records its calls: the mappings before the
    first one that fails pass, each in the state the ones before it leave;
    the calls are their deletes, and that of the failing mapping when it is
    the store's delete that fails; the error is that of the failure. *)
Lemma deleteEach_first_failure ctx urms : forall (w : World) (log : list (StoreCall ID URM)),
  exists n,
    (forall i u, (i < n)%nat -> urms !! i = Some u -> passesAt ctx u (stateAt ctx urms w i))
    /\ match urms !! n with
       | None =>
           (recordedDeleteEach ctx urms (w, log)).1 = None
           /\ (recordedDeleteEach ctx urms (w, log)).2.2 = log ++ (deleteCall <$> urms)
       | Some u =>
           exists err called,
             failsAt ctx u (stateAt ctx urms w n) err called
             /\ (recordedDeleteEach ctx urms (w, log)).1 = Some err
             /\ (recordedDeleteEach ctx urms (w, log)).2.2
                = log ++ (deleteCall <$> take (if called then S n else n) urms)
       end.
Proof.
  induction urms as [|urm urms IH]; intros w log.
  - exists 0%nat. split; [intros i u Hi; lia|]. simpl. by rewrite app_nil_r.
  - unfold recordFind, recordDelete in *. simpl.
    destruct (FindResourceOrganizationID ctx (mappingResourceType urm)
                (mappingResourceID urm) w) as [[orgID [err|]] w1] eqn:Hfind; simpl.
    { exists 0%nat. split; [intros i u Hi; lia|]. simpl.
      exists err, false. unfold failsWith, organizationOf. rewrite Hfind. simpl.
      by rewrite app_nil_r. }
    destruct (AuthorizeWrite ctx (mappingResourceType urm) (mappingResourceID urm) orgID)
      as [err|] eqn:Hauth; simpl.
    { exists 0%nat. split; [intros i u Hi; lia|]. simpl.
      exists err, false. unfold failsWith, organizationOf. rewrite Hfind. simpl.
      rewrite Hauth. by rewrite app_nil_r. }
    destruct (sDeleteUserResourceMapping ctx (mappingResourceID urm)
                (mappingUserID urm) w1) as [[err|] w2] eqn:Hdel; simpl.
    { exists 0%nat. split; [intros i u Hi; lia|]. simpl.
      exists err, true. unfold failsWith, organizationOf, deleteOf. rewrite Hfind. simpl.
      rewrite Hauth, Hdel. done. }
    destruct (IH w2 (log ++ [deleteCall urm])) as (n & Hpass & Hout).
    exists (S n). split.
    + intros i u Hi Hu. destruct i as [|i]; simpl in *.
      * injection Hu as <-. exists orgID.
        unfold organizationOf, deleteOf. rewrite Hfind. simpl. by rewrite Hdel.
      * rewrite ?Hfind; simpl; rewrite ?Hdel; simpl. apply Hpass; [lia|done].
    + simpl. rewrite ?Hfind; simpl; rewrite ?Hdel; simpl.
      destruct (urms !! n) as [u|].
      * destruct Hout as (err & called & Hfail & Herr & Hlog).
        exists err, called. split_and!; [done|done|].
        rewrite Hlog, <- app_assoc. by destruct called.
      * destruct Hout as [Herr Hlog]. split; [done|].
        by rewrite Hlog, <- app_assoc.
Qed.

(** X14. [DeleteUserResourceMapping] stops at the first failure and calls
    the store's delete only for a mapping whose organization was found and
    under which the write was authorized.  With a store that records its
    calls: when the find fails there is no call and its error is returned.
    Otherwise there is an index [n] such that every mapping found before
    it passed (organization found, write authorized under it, delete
    succeeded), each in the state the ones before it left.  When [n] is
    past the last mapping, nil is returned and the calls are the deletes
    of all the mappings, in order.  When a mapping has index [n], it is
    the first to fail, its error is returned, and the calls are the
    deletes of the mappings before it, followed by its own only when it
    is the store's delete that failed: nothing is called after a
    failure. *)
Theorem DeleteUserResourceMapping_calls_authorized
    (ctx : Ctx) (resourceID userID : ID) (w : World) :
  let found := sFindUserResourceMappings ctx (filterOf resourceID userID) [] w in
  let urms := found.1.1.1 in
  let result :=
    DeleteUserResourceMapping (Recorded World ID URM) Ctx ID ResourceType URM Filter
      FindOptions error mappingResourceType mappingResourceID mappingUserID filterOf
      (fun ctx f opt => recordFind World ID URM (sFindUserResourceMappings ctx f opt))
      (recordDelete World Ctx ID URM error sDeleteUserResourceMapping)
      (fun ctx rt id => recordFind World ID URM (FindResourceOrganizationID ctx rt id))
      AuthorizeWrite ctx resourceID userID (w, []) in
  match found.1.2 with
  | Some err => result.1 = Some err /\ result.2.2 = []
  | None =>
      exists n,
        (forall i u, (i < n)%nat -> urms !! i = Some u ->
           authorizedAndDeleted World Ctx ID ResourceType URM error
             mappingResourceType mappingResourceID mappingUserID
             sDeleteUserResourceMapping FindResourceOrganizationID AuthorizeWrite
             ctx u
             (worldAt World Ctx ID ResourceType URM error
                mappingResourceType mappingResourceID mappingUserID
                sDeleteUserResourceMapping FindResourceOrganizationID
                ctx urms found.2 i))
        /\ match urms !! n with
           | None =>
               result.1 = None
               /\ result.2.2
                  = (fun u => CallDelete ID URM (mappingResourceID u) (mappingUserID u))
                    <$> urms
           | Some u =>
               exists err called,
                 failsWith World Ctx ID ResourceType URM error
                   mappingResourceType mappingResourceID mappingUserID
                   sDeleteUserResourceMapping FindResourceOrganizationID AuthorizeWrite
                   ctx u
                   (worldAt World Ctx ID ResourceType URM error
                      mappingResourceType mappingResourceID mappingUserID
                      sDeleteUserResourceMapping FindResourceOrganizationID
                      ctx urms found.2 n)
                   err called
                 /\ result.1 = Some err
                 /\ result.2.2
                    = (fun u => CallDelete ID URM (mappingResourceID u) (mappingUserID u))
                      <$> take (if called then S n else n) urms
           end
  end.
Proof.
  intros found urms result. subst urms result found.
  unfold DeleteUserResourceMapping, recordFind. simpl.
  destruct (sFindUserResourceMappings ctx (filterOf resourceID userID) [] w)
    as [[[urms count] [err|]] w1]; simpl; [done|].
  destruct (deleteEach_first_failure ctx urms w1 []) as (n & Hpass & Hout).
  exists n. split; [exact Hpass|]. exact Hout.
Qed.

(** X15. [CreateUserResourceMapping] passes the mapping to the store's
    create only when the organization of the resource was found and the
    caller was authorized to write the resource under it; otherwise it
    returns an error and the store's create is not called. *)
Theorem CreateUserResourceMapping_calls_authorized
    (sCreateUserResourceMapping : Ctx -> URM -> World -> option error * World)
    (ctx : Ctx) (m : URM) (w : World) :
  let result :=
    CreateUserResourceMapping (Recorded World ID URM) Ctx ID ResourceType URM error
      mappingResourceType mappingResourceID
      (recordCreate World Ctx ID URM error sCreateUserResourceMapping)
      (fun ctx rt id => recordFind World ID URM (FindResourceOrganizationID ctx rt id))
      AuthorizeWrite ctx m (w, []) in
  (is_Some result.1 /\ result.2.2 = [])
  \/ (result.2.2 = [CallCreate ID URM m]
      /\ exists orgID,
           (FindResourceOrganizationID ctx (mappingResourceType m)
              (mappingResourceID m) w).1 = (orgID, None)
           /\ AuthorizeWrite ctx (mappingResourceType m) (mappingResourceID m) orgID
              = None).
Proof.
  intros result. subst result.
  unfold CreateUserResourceMapping, recordFind, recordCreate. simpl.
  destruct (FindResourceOrganizationID ctx (mappingResourceType m)
              (mappingResourceID m) w) as [[orgID [err|]] w1]; simpl.
  { left. split; [by eexists|done]. }
  destruct (AuthorizeWrite ctx (mappingResourceType m) (mappingResourceID m) orgID)
    as [err|] eqn:Hauth; simpl.
  { left. split; [by eexists|done]. }
  right. destruct (sCreateUserResourceMapping ctx m w1) as [err w2]. simpl.
  split; [done|]. by exists orgID.
Qed.

End TenantProps.


Section AccountingScenario.
Import Demo.
Local Existing Instance SpecCodec.codec.

Lemma cache_phase_charges_eight_bytes_per_value_witness :
  uncanceled {| FileStore := [segmentA]; Cache := [(diskKey, entryAt [3; 15; 40])] |} never
  /\ exists it,
       MeasurementNames
         {| FileStore := [segmentA]; Cache := [(diskKey, entryAt [3; 15; 40])] |}
         never org bucket 0 20 = (Some it, None)
       /\ ((ScannedBytes (iterStats it)
            - ScannedBytes
                (stats (segmentState
                          {| FileStore := [segmentA];
                             Cache := [(diskKey, entryAt [3; 15; 40])] |}
                          org bucket 0 20))) mod 2 ^ 64
           = (8 * (ScannedValues (iterStats it)
                   - ScannedValues
                       (stats (segmentState
                                 {| FileStore := [segmentA];
                                    Cache := [(diskKey, entryAt [3; 15; 40])] |}
                                 org bucket 0 20)))) mod 2 ^ 64)%Z.
Proof.
  assert (Hlive : uncanceled {| FileStore := [segmentA];
                                Cache := [(diskKey, entryAt [3; 15; 40])] |} never)
    by (intros k _; reflexivity).
  split; [exact Hlive|].
  exact (cache_phase_charges_eight_bytes_per_value _ never org bucket 0 20 Hlive).
Defined.

(** The cache entry for disk is charged its three values and 24 bytes. *)
Example cache_entry_charged :
  MeasurementNames
    {| FileStore := [segmentA]; Cache := [(diskKey, entryAt [3; 15; 40])] |}
    never org bucket 0 20
  = (Some {| iterValues := ["cpu"; "disk"; "mem"];
             iterStats := {| ScannedValues := 9; ScannedBytes := 72 |} |}, None).
Proof. vm_compute. reflexivity. Qed.

End AccountingScenario.
